(** * Verification of the bracket-tree reader and writer (bracket_tree.py)

    The development embeds the tokenizer, the parser, the [Node] methods and
    the serializer of [bracket_tree.py] and settles the properties stated
    for them.

    Modelling choices.
    - A Python [str] is a sequence of Unicode code points: [str := list char]
      with [char := N].  String literals are written [py "..."].
    - Python exceptions are values of [exn]; a call that can raise returns a
      [result].
    - [Node] objects are mutable and carry a [parent] reference, so they live
      in a store ([list Node], a reference is an index, allocation appends).
      The text written by [dump] depends only on keywords and children, so
      [dump] is defined on the structural value of a node, a [Tree]. *)

From Stdlib Require Import ZArith NArith String Ascii List Bool Lia.
From stdpp Require Import base tactics option list countable gmap.
Import ListNotations.

Local Open Scope N_scope.
Local Open Scope list_scope.

(** ** Strings *)

Abbreviation char := N.
Abbreviation str := (list char).

Fixpoint py (s : string) : str :=
  match s with
  | EmptyString => []
  | String a s' => N_of_ascii a :: py s'
  end.

Definition DQUOTE : char := 34.
Definition LPAREN : char := 40.
Definition RPAREN : char := 41.
Definition SPACE : char := 32.
Definition NEWLINE : char := 10.
Definition TAB : char := 9.

(** [c.isspace()] for a one-character string: the code points CPython
    classifies as whitespace. *)
Definition isspace (c : char) : bool :=
  ((9 <=? c) && (c <=? 13)) || ((28 <=? c) && (c <=? 32))
  || (c =? 133) || (c =? 160) || (c =? 5760)
  || ((8192 <=? c) && (c <=? 8202))
  || (c =? 8232) || (c =? 8233) || (c =? 8239) || (c =? 8287)
  || (c =? 12288).

(** [x in word] for a one-character [x]. *)
Definition contains (x : char) (word : str) : bool := existsb (N.eqb x) word.

(** [len(word)] used as a condition. *)
Definition nonempty (word : str) : bool :=
  match word with [] => false | _ :: _ => true end.

(** ** Exceptions *)

Inductive exn : Set :=
| AssertionError
| AttributeError
| IndexError
| ValueError
| RecursionError.

Inductive result (A : Type) : Type :=
| Ok (a : A)
| Raise (e : exn).
Arguments Ok {A} a.
Arguments Raise {A} e.

#[global] Instance result_bind : MBind result := fun A B k r =>
  match r with
  | Ok a => k a
  | Raise e => Raise e
  end.

(** ** Tokens *)

Inductive TokenType : Set :=
| TOKEN_WORD
| TOKEN_KEYWORD
| TOKEN_OPEN
| TOKEN_CLOSE.

Record Token : Type := mkToken { type : TokenType; data : str }.

(** ** tokenize *)

Module Scan.
(** The local variables of [tokenize]. *)
Record state : Type := mk {
  tokens : list Token;
  quote : bool;
  word_token : TokenType;
  word : str
}.
End Scan.

Definition scan_init : Scan.state :=
  Scan.mk [] false TOKEN_KEYWORD [].

(** One iteration of the [while True] loop, for the character [c] read. *)
Definition tokenize_step (st : Scan.state) (c : char) : Scan.state :=
  let '(Scan.mk tokens quote word_token word) := st in
  if negb quote && (c =? DQUOTE) then
    Scan.mk tokens true word_token word
  else if quote && (c =? DQUOTE) then
    Scan.mk (tokens ++ [mkToken word_token word]) false TOKEN_WORD []
  else if quote then
    Scan.mk tokens quote word_token (word ++ [c])
  else if (c =? LPAREN) || (c =? RPAREN) then
    let '(tokens, word) :=
      if nonempty word then (tokens ++ [mkToken word_token word], [])
      else (tokens, word) in
    let tokens :=
      tokens ++ [mkToken (if c =? LPAREN then TOKEN_OPEN else TOKEN_CLOSE) [c]] in
    Scan.mk tokens quote (if c =? LPAREN then TOKEN_KEYWORD else TOKEN_WORD) word
  else if isspace c then
    if nonempty word then
      Scan.mk (tokens ++ [mkToken word_token word]) quote TOKEN_WORD []
    else st
  else
    Scan.mk tokens quote word_token (word ++ [c]).

(** The loop: characters are read one by one until the text is exhausted. *)
Definition scan (data : str) (st : Scan.state) : Scan.state :=
  fold_left tokenize_step data st.

Definition tokenize (data : str) : list Token :=
  Scan.tokens (scan data scan_init).

(** ** The Node class

    A reference to a [Node] object is its index in the store.  An element of
    [node.child] is either a [str] (an attribute) or a [Node] (a reference). *)

Abbreviation ref := nat.

Inductive Child : Type :=
| Attr (s : str)
| Ref (r : ref).

Arguments Ref r%_nat.

Record Node : Type := mkNode {
  parent : option ref;
  keyword : str;
  child : list Child
}.

Abbreviation Store := (list Node).

#[global] Instance Child_eq_dec : EqDecision Child.
Proof. solve_decision. Defined.

(** [Node(parent, keyword, children)]: a fresh object ([children] is [[]]
    when the argument is omitted).  The constructor is the only place that
    writes [self.parent]. *)
Definition Node_new (h : Store) (parent : option ref) (keyword : str)
    (children : list Child) : Store * ref :=
  (h ++ [mkNode parent keyword children], length h).

(** [self.child.append(c)] on the object's state. *)
Definition child_append (c : Child) (self : Node) : Node :=
  mkNode (parent self) (keyword self) (child self ++ [c]).

(** [Node.add]: the object [self] of the store is updated in place. *)
Definition add (self : ref) (c : Child) (h : Store) : Store :=
  alter (child_append c) self h.

Arguments add self%_nat c h.

(** [x in l], [l.remove(x)] and [l.index(x)] of a Python list.  Elements are
    compared with [==]: strings by value, [Node] objects (the class defines
    no [__eq__]) by identity, that is, by reference. *)
Definition list_in (x : Child) (l : list Child) : bool :=
  existsb (fun y => bool_decide (y = x)) l.

Fixpoint list_remove (x : Child) (l : list Child) : result (list Child) :=
  match l with
  | [] => Raise ValueError
  | y :: l' =>
      if bool_decide (y = x) then Ok l'
      else l'' ← list_remove x l'; Ok (y :: l'')
  end.

Fixpoint list_index (x : Child) (l : list Child) : result nat :=
  match l with
  | [] => Raise ValueError
  | y :: l' =>
      if bool_decide (y = x) then Ok 0%nat
      else i ← list_index x l'; Ok (S i)
  end.

(** [Node.remove] on the object's state. *)
Definition remove (self : Node) (c : Child) : result Node :=
  if list_in c (child self) then
    l ← list_remove c (child self);
    Ok (mkNode (parent self) (keyword self) l)
  else Raise AssertionError.

(** [Node.replace] on the object's state. *)
Definition replace (self : Node) (c new_child : Child) : result Node :=
  if list_in c (child self) then
    idx ← list_index c (child self);
    Ok (mkNode (parent self) (keyword self) (<[idx := new_child]> (child self)))
  else Raise AssertionError.

(** ** The read-only methods of Node

    [children] and [attributes] are the two properties of the class; a child
    node is handed out as its reference.  [findall] reads the keyword of each
    child node in the store (a reference that designates no object, which no
    Python value is, matches no keyword). *)

Definition children (self : Node) : list ref :=
  omap (fun c => match c with Ref r => Some r | Attr _ => None end) (child self).

Definition attributes (self : Node) : list str :=
  omap (fun c => match c with Attr s => Some s | Ref _ => None end) (child self).

Definition findall (h : Store) (self : Node) (kw : str) : list ref :=
  filter (fun c => keyword <$> h !! c = Some kw) (children self).

Definition find (h : Store) (self : Node) (kw : str) : option ref :=
  match findall h self kw with
  | r :: _ => Some r
  | [] => None
  end.

Definition has (self : Node) (attr : str) : bool :=
  existsb (fun a => bool_decide (a = attr)) (attributes self).

(** ** parse *)

Module Parse.
(** The store together with the local variables of [parse].  The head of
    [stack] is the last element of the Python list. *)
Record state : Type := mk {
  heap : Store;
  root : option ref;
  node : option ref;
  stack : list (option ref)
}.
End Parse.

Definition parse_init : Parse.state := Parse.mk [] None None [].

(** The body of [for token in tokens].  [x.child.append(y)] is the body of
    [Node.add]. *)
Definition parse_step (st : Parse.state) (token : Token) : result Parse.state :=
  let '(Parse.mk heap root node stack) := st in
  match type token with
  | TOKEN_OPEN => Ok st
  | TOKEN_KEYWORD =>
      let stack := node :: stack in
      let parent := node in
      let '(heap, new) := Node_new heap parent (data token) [] in
      match parent with
      | Some p => Ok (Parse.mk (add p (Ref new) heap) root (Some new) stack)
      | None =>
          match root with
          | None => Ok (Parse.mk heap (Some new) (Some new) stack)
          | Some _ => Raise AssertionError
          end
      end
  | TOKEN_WORD =>
      match node with
      | Some n => Ok (Parse.mk (add n (Attr (data token)) heap) root node stack)
      | None => Raise AttributeError
      end
  | TOKEN_CLOSE =>
      match stack with
      | top :: rest => Ok (Parse.mk heap root top rest)
      | [] => Raise IndexError
      end
  end.

Fixpoint parse_loop (tokens : list Token) (st : Parse.state) : result Parse.state :=
  match tokens with
  | [] => Ok st
  | token :: tokens' => st' ← parse_step st token; parse_loop tokens' st'
  end.

(** [parse] as the source has it: the store it has built and the reference
    it returns ([None] when no node was created). *)
Definition parse_store (data : str) : result (Store * option ref) :=
  st ← parse_loop (tokenize data) parse_init;
  match Parse.stack st with
  | [] => Ok (Parse.heap st, Parse.root st)
  | _ :: _ => Raise AssertionError
  end.

(** ** Structural value of a node *)

(** A keyword and the mixed sequence of attributes ([inl]) and sub-nodes
    ([inr]), in order. *)
#[warnings="-register-all"]
Inductive Tree : Type :=
| T (kw : str) (items : list (str + Tree)).

Definition tree_child (t : Tree) : list (str + Tree) := let 'T _ items := t in items.

(** The tree below reference [r].  The read is bounded by [fuel]; it fails
    on a dangling reference or when the bound is reached, which is what a
    recursive traversal does on a store that is not a tree. *)
Fixpoint tree_at (fuel : nat) (h : Store) (r : ref) : option Tree :=
  match fuel with
  | O => None
  | S fuel' =>
      n ← h !! r;
      items ← mapM (fun c =>
                 match c with
                 | Attr s => Some (inl s)
                 | Ref r' => inr <$> tree_at fuel' h r'
                 end) (child n);
      Some (T (keyword n) items)
  end.

(** [parse] followed by a read of the returned tree. *)
Definition parse (data : str) : result (option Tree) :=
  '(h, root) ← parse_store data;
  match root with
  | None => Ok None
  | Some r =>
      match tree_at (length h) h r with
      | Some t => Ok (Some t)
      | None => Raise RecursionError
      end
  end.

(** ** dump *)

(** The inner function of [dump]; [tokens] is the list it appends to. *)
Fixpoint node_to_tokens (node : Tree) (tokens : list Token) : list Token :=
  let 'T kw items := node in
  let tokens := tokens ++ [mkToken TOKEN_OPEN [LPAREN]] in
  let tokens := tokens ++ [mkToken TOKEN_KEYWORD kw] in
  let tokens :=
    fold_left (fun tokens c =>
                 match c with
                 | inl s => tokens ++ [mkToken TOKEN_WORD s]
                 | inr n => node_to_tokens n tokens
                 end) items tokens in
  tokens ++ [mkToken TOKEN_CLOSE [RPAREN]].

(** The quoting test shared by the KEYWORD and WORD branches. *)
Definition must_quote (word : str) : bool :=
  contains LPAREN word || contains RPAREN word || contains SPACE word
  || (length word =? 0)%nat.

Definition quoted (word : str) : str :=
  if must_quote word then [DQUOTE] ++ word ++ [DQUOTE] else word.

(** [" " * indent]: empty for a non-positive count. *)
Definition spaces (indent : Z) : str := repeat SPACE (Z.to_nat indent).

Module Render.
(** The local variables of the second loop of [dump]. *)
Record state : Type := mk {
  string : str;
  indent : Z;
  newline : bool
}.
End Render.

Definition render_init : Render.state := Render.mk [] 0%Z false.

Definition render_step (st : Render.state) (token : Token) : Render.state :=
  let '(Render.mk string indent newline) := st in
  match type token with
  | TOKEN_OPEN =>
      Render.mk (string ++ [NEWLINE] ++ spaces indent ++ [LPAREN]) indent false
  | TOKEN_KEYWORD =>
      Render.mk (string ++ quoted (data token)) (indent + 2)%Z newline
  | TOKEN_WORD =>
      Render.mk (string ++ [SPACE] ++ quoted (data token)) indent newline
  | TOKEN_CLOSE =>
      let indent := (indent - 2)%Z in
      if newline then
        Render.mk (string ++ [NEWLINE] ++ spaces indent ++ [RPAREN]) indent true
      else
        Render.mk (string ++ [RPAREN]) indent true
  end.

Definition render (tokens : list Token) (st : Render.state) : Render.state :=
  fold_left render_step tokens st.

Definition dump (tree : Tree) : str :=
  Render.string (render (node_to_tokens tree []) render_init).

(** ** The read-only methods on the structural value

    [parse] is modelled as returning the structural value of the root, so
    code that only reads the tree it gets from [parse] is modelled on
    [Tree]: the same methods as above, a child node being the sub-tree
    (lemma [tree_methods_agree] relates the two). *)

Definition tree_keyword (t : Tree) : str := let 'T kw _ := t in kw.

Definition tree_children (t : Tree) : list Tree :=
  omap (fun c => match c with inr n => Some n | inl _ => None end) (tree_child t).

Definition tree_attributes (t : Tree) : list str :=
  omap (fun c => match c with inl s => Some s | inr _ => None end) (tree_child t).

Definition tree_findall (t : Tree) (kw : str) : list Tree :=
  filter (fun c => tree_keyword c = kw) (tree_children t).

Definition tree_find (t : Tree) (kw : str) : option Tree :=
  match tree_findall t kw with
  | c :: _ => Some c
  | [] => None
  end.

(** ** The library tables (kicad_liberator.py) *)

(** [Library = namedtuple("Library", "name filename")]. *)
Record Library : Type := mkLibrary { name : str; filename : str }.

#[global] Instance Library_eq_dec : EqDecision Library.
Proof. solve_decision. Defined.

#[global] Instance Library_countable : Countable Library :=
  inj_countable' (fun l => (name l, filename l))
                 (fun p => mkLibrary (fst p) (snd p))
                 (fun l => match l with mkLibrary _ _ => eq_refl end).

(** [node.find(kw).attributes[0]]: the attribute access fails on [None], the
    index fails on an empty list. *)
Definition first_attribute (node : Tree) (kw : str) : result str :=
  match tree_find node kw with
  | None => Raise AttributeError
  | Some c =>
      match tree_attributes c with
      | a :: _ => Ok a
      | [] => Raise IndexError
      end
  end.

(** The loop of [load_lib_table] over [root.findall("lib")]; [libs] is the
    set built so far.  The warning printed for an unsupported type is not
    modelled. *)
Fixpoint load_libs (nodes : list Tree) (libs : gset Library) : result (gset Library) :=
  match nodes with
  | [] => Ok libs
  | node :: nodes' =>
      name ← first_attribute node (py "name");
      type_ ← first_attribute node (py "type");
      uri ← first_attribute node (py "uri");
      if bool_decide (type_ = py "Legacy") || bool_decide (type_ = py "KiCad")
      then load_libs nodes' ({[ mkLibrary name uri ]} ∪ libs)
      else load_libs nodes' libs
  end.

(** [load_lib_table], on the text read from the file. *)
Definition load_lib_table (data : str) : result (gset Library) :=
  root ← parse data;
  match root with
  | None => Raise AttributeError
  | Some root =>
      if bool_decide (tree_keyword root = py "sym_lib_table")
         || bool_decide (tree_keyword root = py "fp_lib_table")
      then load_libs (tree_findall root (py "lib")) ∅
      else Raise AssertionError
  end.



(** ** Definitions used to state the properties *)

Definition OPEN : Token := mkToken TOKEN_OPEN [LPAREN].
Definition CLOSE : Token := mkToken TOKEN_CLOSE [RPAREN].
Definition KEYWORD (w : str) : Token := mkToken TOKEN_KEYWORD w.
Definition WORD (w : str) : Token := mkToken TOKEN_WORD w.

(** The word that is still in the buffer, as the token a flush would emit. *)
Definition pending (st : Scan.state) : list Token :=
  if nonempty (Scan.word st)
  then [mkToken (Scan.word_token st) (Scan.word st)]
  else [].

Definition whitespace_only (data : str) : Prop :=
  Forall (fun c => isspace c = true) data.

(** The spec's name for the failed assertion of [remove] and [replace]. *)
Definition NotFound : exn := AssertionError.

(** The spec's name for a failure of [parse]: the failed assertions, the
    attribute access on [None] and the pop from an empty list. *)
Definition MalformedDocument (e : exn) : Prop :=
  e = AssertionError \/ e = AttributeError \/ e = IndexError.

(** Contexts opened and closed by a token, and the number of contexts
    that are open after a token sequence. *)
Definition delta (t : Token) : Z :=
  match type t with
  | TOKEN_KEYWORD => 1
  | TOKEN_CLOSE => -1
  | _ => 0
  end.

Fixpoint depth (tokens : list Token) : Z :=
  match tokens with
  | [] => 0
  | t :: tokens' => delta t + depth tokens'
  end.

Definition has_keyword (tokens : list Token) : Prop :=
  Exists (fun t => type t = TOKEN_KEYWORD) tokens.

(** The four structural violations, in the spec's words, read on the token
    sequence alone. *)
Inductive Malformed (tokens : list Token) : Prop :=
| second_root (pre post : list Token) (t : Token) :
    tokens = pre ++ t :: post -> type t = TOKEN_KEYWORD ->
    depth pre = 0%Z -> has_keyword pre -> Malformed tokens
| attribute_outside_node (pre post : list Token) (t : Token) :
    tokens = pre ++ t :: post -> type t = TOKEN_WORD ->
    depth pre = 0%Z -> Malformed tokens
| unmatched_close (pre post : list Token) (t : Token) :
    tokens = pre ++ t :: post -> type t = TOKEN_CLOSE ->
    depth pre = 0%Z -> Malformed tokens
| leftover_open :
    (0 < depth tokens)%Z -> Malformed tokens.

(** Invariant of the variables [root], [node] and [stack]: outside any node
    the stack is empty; inside one a root exists and [None] is exactly the
    bottom entry of the stack. *)
Definition ctl (st : Parse.state) : Prop :=
  match Parse.node st with
  | None => Parse.stack st = []
  | Some _ =>
      is_Some (Parse.root st) /\
      exists ups : list ref, Parse.stack st = (Some <$> ups) ++ [None]
  end.

(** Invariant of the store built by [parse]: a node's children were created
    after it with it as parent, and [node], [stack] and [root] hold valid
    references. *)
Definition store_ok (st : Parse.state) : Prop :=
  let h := Parse.heap st in
  (forall i n r, h !! i = Some n -> Ref r ∈ child n ->
     (i < r)%nat /\ parent <$> h !! r = Some (Some i)) /\
  (forall p, Parse.node st = Some p -> (p < length h)%nat) /\
  (forall q, Some q ∈ Parse.stack st -> (q < length h)%nat) /\
  (forall r, Parse.root st = Some r -> parent <$> h !! r = Some None).

(** Nodes reachable from [R] through [child]. *)
Inductive reachable (h : Store) (R : ref) : ref -> Prop :=
| reach_root : reachable h R R
| reach_child (N C : ref) (n : Node) :
    reachable h R N -> h !! N = Some n -> Ref C ∈ child n -> reachable h R C.

(** *** The token sequence and the text of a tree, by recursion on the tree

    [node_to_tokens] and the rendering loop are characterised by the two
    functions below (lemmas [node_to_tokens_eq] and [render_tree]). *)

Definition is_node (c : str + Tree) : bool :=
  match c with inl _ => false | inr _ => true end.

Definition has_subnode (t : Tree) : bool := existsb is_node (tree_child t).

Fixpoint tree_tokens (t : Tree) : list Token :=
  let 'T kw items := t in
  OPEN :: KEYWORD kw ::
  concat (map (fun c => match c with
                        | inl s => [WORD s]
                        | inr n => tree_tokens n
                        end) items)
  ++ [CLOSE].

Definition closing (indent : Z) (multi : bool) : str :=
  if multi then [NEWLINE] ++ spaces indent ++ [RPAREN] else [RPAREN].

Fixpoint node_text (indent : Z) (t : Tree) : str :=
  let 'T kw items := t in
  [NEWLINE] ++ spaces indent ++ [LPAREN] ++ quoted kw ++
  concat (map (fun c => match c with
                        | inl s => [SPACE] ++ quoted s
                        | inr n => node_text (indent + 2) n
                        end) items)
  ++ closing indent (existsb is_node items).

(** All keywords and attribute values of a tree. *)
Fixpoint tree_words (t : Tree) : list str :=
  let 'T kw items := t in
  kw :: concat (map (fun c => match c with
                              | inl s => [s]
                              | inr n => tree_words n
                              end) items).

(** A value that the tokenizer reads back from what [dump] writes for it: it
    holds no double quote and, when it is written bare, no whitespace. *)
Definition recoverable (w : str) : Prop :=
  Forall (fun c => c <> DQUOTE) w /\
  (must_quote w = false -> Forall (fun c => isspace c = false) w).

(** Tokens emitted so far together with the pending word. *)
Definition out (st : Scan.state) : list Token := Scan.tokens st ++ pending st.

(** Outside quoting, with the mode at EXPECT_WORD unless a word is pending. *)
Definition settled (st : Scan.state) : Prop :=
  Scan.quote st = false /\
  (Scan.word st = [] -> Scan.word_token st = TOKEN_WORD).

(** The store [h'] has the same objects as [h] at the references from [lo]
    up to [hi]. *)
Definition agree (lo hi : nat) (h h' : Store) : Prop :=
  forall i, (lo <= i < hi)%nat -> h' !! i = h !! i.

(** The objects of [h] from [lo] up to [hi] hold the tree [t], rooted at
    [lo]: every store with these objects reads [t] there. *)
Definition represents (h : Store) (lo hi : nat) (t : Tree) : Prop :=
  (lo < hi)%nat /\
  forall h' fuel, agree lo hi h h' -> (hi - lo <= fuel)%nat ->
    tree_at fuel h' lo = Some t.

Definition item_rep (h : Store) (lo hi : nat) (c : Child) (it : str + Tree) : Prop :=
  match c, it with
  | Attr s, inl s' => s = s'
  | Ref j, inr t => exists e, (lo <= j)%nat /\ (e <= hi)%nat /\ represents h j e t
  | _, _ => False
  end.

(** What stands between the brackets of a node without sub-nodes. *)
Definition leaf_body (kw : str) (attrs : list str) : str :=
  quoted kw ++ concat (map (fun a => [SPACE] ++ quoted a) attrs).

(** The object [n] after the children [cl] have been appended to it. *)
Definition extend (cl : list Child) (n : Node) : Node :=
  mkNode (parent n) (keyword n) (child n ++ cl).

(** What the parser needs on entry of a node: the current node, if any, is
    in the store; outside any node no root exists yet. *)
Definition entry_ok (st : Parse.state) : Prop :=
  match Parse.node st with
  | Some p => (p < length (Parse.heap st))%nat
  | None => Parse.root st = None
  end.

(** The parser run on the tokens of [t]: it ends where it started, it has
    appended the new node to the current node (or made it the root), and it
    has laid the tree out at the end of the store. *)
Definition builds (t : Tree) : Prop :=
  forall st, entry_ok st ->
  exists h',
    parse_loop (tree_tokens t) st =
      Ok (Parse.mk h'
            (match Parse.node st with
             | Some _ => Parse.root st
             | None => Some (length (Parse.heap st))
             end)
            (Parse.node st) (Parse.stack st)) /\
    (length (Parse.heap st) < length h')%nat /\
    (forall i, (i < length (Parse.heap st))%nat ->
       h' !! i =
         (if decide (Parse.node st = Some i)
          then child_append (Ref (length (Parse.heap st))) else id)
         <$> Parse.heap st !! i) /\
    represents h' (length (Parse.heap st)) (length h') t.

(** A string without a double quote; a store whose keywords and attributes
    are such strings. *)
Definition clean (w : str) : Prop := Forall (fun c => c <> DQUOTE) w.

Definition clean_node (n : Node) : Prop :=
  clean (keyword n) /\
  Forall (fun c => match c with Attr s => clean s | Ref _ => True end) (child n).

(** The type the tokenizer gives to a word that comes right after the
    token [prev] ([None]: no token yet). *)
Definition mode_after (prev : option Token) : TokenType :=
  match prev with
  | None => TOKEN_KEYWORD
  | Some t =>
      match type t with
      | TOKEN_OPEN => TOKEN_KEYWORD
      | _ => TOKEN_WORD
      end
  end.

(** Every token is a bracket or has the type its predecessor calls for. *)
Definition classified (tokens : list Token) : Prop :=
  forall pre t post, tokens = pre ++ t :: post ->
    type t = TOKEN_OPEN \/ type t = TOKEN_CLOSE \/
    type t = mode_after (last pre).

(** Invariant of the store built by [parse], the other way round: a node
    with a parent is among the children of that parent, and the only node
    without a parent is the root. *)
Definition owned (st : Parse.state) : Prop :=
  forall r n, Parse.heap st !! r = Some n ->
    match parent n with
    | Some p => exists pn, Parse.heap st !! p = Some pn /\ Ref r ∈ child pn
    | None => Parse.root st = Some r
    end.


(** * Properties *)

(** ** The tokenizer *)

Lemma scan_app (a b : str) (st : Scan.state) :
  scan (a ++ b) st = scan b (scan a st).
Proof. apply fold_left_app. Qed.

Lemma scan_cons (c : char) (a : str) (st : Scan.state) :
  scan (c :: a) st = scan a (tokenize_step st c).
Proof. reflexivity. Qed.

Lemma isspace_not_special (c : char) :
  isspace c = true ->
  (c =? DQUOTE) = false /\ (c =? LPAREN) = false /\ (c =? RPAREN) = false.
Proof.
  intros Hc.
  repeat split; apply N.eqb_neq; intros ->; vm_compute in Hc; discriminate.
Qed.

Lemma step_whitespace (st : Scan.state) (c : char) :
  Scan.quote st = false -> isspace c = true ->
  tokenize_step st c =
    if nonempty (Scan.word st)
    then Scan.mk (Scan.tokens st ++ [mkToken (Scan.word_token st) (Scan.word st)])
                 false TOKEN_WORD []
    else st.
Proof.
  intros Hq Hc. destruct (isspace_not_special c Hc) as (Hd & Hl & Hr).
  destruct st as [tk q m w]; simpl in *; subst q.
  rewrite Hd, Hl, Hr, Hc; simpl. reflexivity.
Qed.

Lemma scan_whitespace (data : str) (st : Scan.state) :
  whitespace_only data -> Scan.quote st = false -> Scan.word st = [] ->
  scan data st = st.
Proof.
  intros Hall; revert st.
  induction Hall as [|c data Hc _ IH]; intros st Hq Hw; [done|].
  rewrite scan_cons, step_whitespace, Hw by done; simpl. by apply IH.
Qed.

Lemma tokenize_whitespace (data : str) :
  whitespace_only data -> tokenize data = [].
Proof.
  intros H. unfold tokenize. by rewrite scan_whitespace.
Qed.

(** C5, as amended: outside quoting, a whitespace character flushes a pending
    word as a token typed by the current mode and then sets the mode to
    EXPECT_WORD; when no word is pending it changes nothing, the mode
    included; a whitespace character that follows whitespace emits no
    token. *)
Theorem whitespace_flushes_pending_word (st : Scan.state) (c : char) :
  Scan.quote st = false -> isspace c = true ->
  (nonempty (Scan.word st) = true ->
   tokenize_step st c =
     Scan.mk (Scan.tokens st ++ [mkToken (Scan.word_token st) (Scan.word st)])
             false TOKEN_WORD []) /\
  (Scan.word st = [] -> tokenize_step st c = st) /\
  (forall c', isspace c' = true ->
     tokenize_step (tokenize_step st c) c' = tokenize_step st c).
Proof.
  intros Hq Hc. rewrite (step_whitespace st c Hq Hc).
  split; [|split].
  - by intros ->.
  - by intros ->.
  - intros c' Hc'. destruct (nonempty (Scan.word st)) eqn:Hw.
    + by rewrite step_whitespace.
    + by rewrite step_whitespace, Hw.
Qed.

Lemma whitespace_flushes_pending_word_witness :
  Scan.quote (scan (py "(a") scan_init) = false /\ isspace SPACE = true /\
  nonempty (Scan.word (scan (py "(a") scan_init)) = true /\
  tokenize_step (scan (py "(a") scan_init) SPACE =
    Scan.mk [OPEN; KEYWORD (py "a")] false TOKEN_WORD [].
Proof.
  do 3 (split; [reflexivity|]).
  exact (proj1 (whitespace_flushes_pending_word
                  (scan (py "(a") scan_init) SPACE eq_refl eq_refl) eq_refl).
Defined.

(** C5, as stated, fails: right after an OPEN no word is pending, the space
    leaves the mode at EXPECT_KEYWORD and the next word is a KEYWORD. *)
Lemma whitespace_after_open_keeps_mode :
  Scan.quote (scan (py "(") scan_init) = false /\
  isspace SPACE = true /\
  Scan.word_token (tokenize_step (scan (py "(") scan_init) SPACE) = TOKEN_KEYWORD /\
  tokenize (py "( a)") = [OPEN; KEYWORD (py "a"); CLOSE] /\
  ~ (forall st c, Scan.quote st = false -> isspace c = true ->
       Scan.word_token (tokenize_step st c) = TOKEN_WORD).
Proof.
  repeat split.
  intros H. specialize (H (scan (py "(") scan_init) SPACE eq_refl eq_refl).
  discriminate H.
Qed.

(** C4 on the code: the loop leaves on end of input and returns [tokens]
    as they are.  On the text [(a) b] the scan ends outside quoting with the
    word [b] pending in mode EXPECT_WORD, and no token is emitted for it; a
    text that is one bare word yields no token at all. *)
Theorem pending_word_dropped_at_end_of_input :
  Scan.quote (scan (py "(a) b") scan_init) = false /\
  Scan.word (scan (py "(a) b") scan_init) = py "b" /\
  Scan.word_token (scan (py "(a) b") scan_init) = TOKEN_WORD /\
  tokenize (py "(a) b") = [OPEN; KEYWORD (py "a"); CLOSE] /\
  tokenize (py "(a) b ") = [OPEN; KEYWORD (py "a"); CLOSE; WORD (py "b")] /\
  tokenize (py "a") = [].
Proof. by repeat split. Qed.

(** ** The Node methods *)

Lemma list_in_spec (x : Child) (l : list Child) :
  list_in x l = true <-> x ∈ l.
Proof.
  unfold list_in. induction l as [|y l IH]; simpl.
  - split; [done|]. intros H. by apply elem_of_nil in H.
  - rewrite orb_true_iff, IH, bool_decide_eq_true, elem_of_cons.
    split; (intros [E|E]; [left; congruence|by right]).
Qed.

Lemma list_remove_spec (x : Child) (l : list Child) :
  x ∈ l ->
  exists l1 l2, l = l1 ++ x :: l2 /\ (x ∉ l1) /\ list_remove x l = Ok (l1 ++ l2).
Proof.
  induction l as [|y l IH]; intros Hin; [by apply elem_of_nil in Hin|].
  simpl. case_bool_decide as Hy.
  - subst y. exists [], l. split_and!; [done| |done]. apply not_elem_of_nil.
  - apply elem_of_cons in Hin as [->|Hin]; [done|].
    destruct (IH Hin) as (l1 & l2 & -> & Hn & ->).
    exists (y :: l1), l2. split_and!; [done| |done].
    rewrite not_elem_of_cons. split; [congruence|done].
Qed.

Lemma list_index_spec (x : Child) (l : list Child) :
  x ∈ l ->
  exists l1 l2, l = l1 ++ x :: l2 /\ (x ∉ l1) /\ list_index x l = Ok (length l1).
Proof.
  induction l as [|y l IH]; intros Hin; [by apply elem_of_nil in Hin|].
  simpl. case_bool_decide as Hy.
  - subst y. exists [], l. split_and!; [done| |done]. apply not_elem_of_nil.
  - apply elem_of_cons in Hin as [->|Hin]; [done|].
    destruct (IH Hin) as (l1 & l2 & -> & Hn & ->).
    exists (y :: l1), l2. split_and!; [done| |done].
    rewrite not_elem_of_cons. split; [congruence|done].
Qed.

(** C7: [remove] and [replace] fail with NotFound exactly when the child is
    absent; otherwise [remove] deletes the first occurrence and [replace]
    puts the new child in the place of the first occurrence, every other
    child and the length of the sequence being unchanged. *)
Theorem remove_replace_first_occurrence (self : Node) (c new_child : Child) :
  (remove self c = Raise NotFound <-> c ∉ child self) /\
  (replace self c new_child = Raise NotFound <-> c ∉ child self) /\
  (c ∈ child self ->
   exists l1 l2,
     child self = l1 ++ c :: l2 /\ (c ∉ l1) /\
     remove self c = Ok (mkNode (parent self) (keyword self) (l1 ++ l2)) /\
     replace self c new_child =
       Ok (mkNode (parent self) (keyword self) (l1 ++ new_child :: l2)) /\
     length (l1 ++ new_child :: l2) = length (child self) /\
     (forall i, i <> length l1 ->
        (l1 ++ new_child :: l2) !! i = child self !! i)).
Proof.
  assert (Hok : c ∈ child self ->
    exists l1 l2,
     child self = l1 ++ c :: l2 /\ (c ∉ l1) /\
     remove self c = Ok (mkNode (parent self) (keyword self) (l1 ++ l2)) /\
     replace self c new_child =
       Ok (mkNode (parent self) (keyword self) (l1 ++ new_child :: l2))).
  { intros Hin. unfold remove, replace.
    rewrite (proj2 (list_in_spec c (child self)) Hin).
    destruct (list_remove_spec c _ Hin) as (l1 & l2 & E & Hn & ->).
    destruct (list_index_spec c _ Hin) as (k1 & k2 & E' & Hn' & ->).
    assert (k1 = l1 /\ k2 = l2) as [-> ->].
    { rewrite E in E'. clear -E' Hn Hn'.
      revert k1 E' Hn'. induction l1 as [|a l1 IH]; intros [|b k1] E' Hn'; simpl in *.
      - by injection E' as ->.
      - injection E' as <- _. exfalso. apply Hn', elem_of_cons. by left.
      - injection E' as -> _. exfalso. apply Hn, elem_of_cons. by left.
      - injection E' as -> E'.
        rewrite not_elem_of_cons in Hn, Hn'.
        destruct (IH (proj2 Hn) k1 E' (proj2 Hn')) as [-> ->]. done. }
    exists l1, l2. split_and!; try done. simpl.
    rewrite E. by rewrite insert_app_r_alt, Nat.sub_diag. }
  split; [|split].
  - split.
    + intros Hr Hin. destruct (Hok Hin) as (? & ? & _ & _ & E & _).
      rewrite E in Hr. discriminate.
    + intros Hn. unfold remove.
      destruct (list_in c (child self)) eqn:E; [|done].
      by apply list_in_spec in E.
  - split.
    + intros Hr Hin. destruct (Hok Hin) as (? & ? & _ & _ & _ & E).
      rewrite E in Hr. discriminate.
    + intros Hn. unfold replace.
      destruct (list_in c (child self)) eqn:E; [|done].
      by apply list_in_spec in E.
  - intros Hin. destruct (Hok Hin) as (l1 & l2 & E & Hn & Hr & Hp).
    exists l1, l2. split_and!; try done.
    + rewrite E, !length_app. done.
    + intros i Hi. rewrite E.
      destruct (decide (i < length l1)%nat).
      * by rewrite !lookup_app_l.
      * rewrite !lookup_app_r by lia.
        destruct (i - length l1)%nat eqn:Ed; [lia|done].
Qed.

Lemma remove_replace_first_occurrence_witness :
  Attr (py "x") ∈ child (mkNode None (py "a") [Ref 1; Attr (py "x"); Attr (py "x")]) /\
  exists l1 l2,
    child (mkNode None (py "a") [Ref 1; Attr (py "x"); Attr (py "x")])
      = l1 ++ Attr (py "x") :: l2 /\ (Attr (py "x") ∉ l1) /\
    remove (mkNode None (py "a") [Ref 1; Attr (py "x"); Attr (py "x")]) (Attr (py "x"))
      = Ok (mkNode None (py "a") (l1 ++ l2)) /\
    replace (mkNode None (py "a") [Ref 1; Attr (py "x"); Attr (py "x")])
        (Attr (py "x")) (Ref 2)
      = Ok (mkNode None (py "a") (l1 ++ Ref 2 :: l2)) /\
    length (l1 ++ Ref 2 :: l2) = 3%nat /\
    (forall i, i <> length l1 ->
       (l1 ++ Ref 2 :: l2) !! i = [Ref 1; Attr (py "x"); Attr (py "x")] !! i).
Proof.
  assert (Hin : Attr (py "x") ∈ [Ref 1; Attr (py "x"); Attr (py "x")])
    by (right; left).
  split; [exact Hin|].
  exact (proj2 (proj2 (remove_replace_first_occurrence
    (mkNode None (py "a") [Ref 1; Attr (py "x"); Attr (py "x")])
    (Attr (py "x")) (Ref 2))) Hin).
Defined.

Lemma lookup_add (p : ref) (c : Child) (h : Store) (i : ref) :
  add p c h !! i =
    (if decide (p = i) then child_append c else id) <$> h !! i.
Proof.
  unfold add. rewrite list_lookup_alter.
  destruct (decide (p = i)) as [->|]; [done|].
  by destruct (h !! i).
Qed.

Lemma lookup_add_parent (p : ref) (c : Child) (h : Store) (i : ref) :
  parent <$> add p c h !! i = parent <$> h !! i.
Proof.
  rewrite lookup_add. destruct (h !! i) as [n|]; [|done].
  simpl. by destruct (decide (p = i)).
Qed.

Lemma length_add (p : ref) (c : Child) (h : Store) :
  length (add p c h) = length h.
Proof. apply length_alter. Qed.

(** C6, as amended: [add] appends the child as the last element of the
    node's sequence and leaves the existing children unchanged; it writes no
    parent reference, every node keeps the parent its constructor gave it. *)
Theorem add_appends_child (h : Store) (N : ref) (n : Node) (c : Child) :
  h !! N = Some n ->
  add N c h !! N = Some (mkNode (parent n) (keyword n) (child n ++ [c])) /\
  (forall i, i <> N -> add N c h !! i = h !! i) /\
  (forall i, parent <$> add N c h !! i = parent <$> h !! i) /\
  length (add N c h) = length h.
Proof.
  intros HN. split_and!.
  - rewrite lookup_add, HN. simpl. by rewrite decide_True.
  - intros i Hi. rewrite lookup_add. rewrite decide_False by done.
    by destruct (h !! i).
  - intros i. apply lookup_add_parent.
  - apply length_add.
Qed.

Lemma add_appends_child_witness :
  [mkNode None (py "a") [Attr (py "x")]; mkNode None (py "b") []] !! 0%nat
    = Some (mkNode None (py "a") [Attr (py "x")]) /\
  add 0 (Ref 1) [mkNode None (py "a") [Attr (py "x")]; mkNode None (py "b") []] !! 0%nat
    = Some (mkNode None (py "a") [Attr (py "x"); Ref 1]).
Proof.
  split; [reflexivity|].
  exact (proj1 (add_appends_child
    [mkNode None (py "a") [Attr (py "x")]; mkNode None (py "b") []]
    0%nat (mkNode None (py "a") [Attr (py "x")]) (Ref 1) eq_refl)).
Defined.

(** C6, as stated, fails: after [N.add(c)] with [c] a node built without a
    parent, [c] is the last child of [N] and its parent is still [None]. *)
Lemma add_does_not_set_parent :
  child <$> add 0 (Ref 1) [mkNode None (py "a") []; mkNode None (py "b") []] !! 0%nat
    = Some [Ref 1] /\
  parent <$> add 0 (Ref 1) [mkNode None (py "a") []; mkNode None (py "b") []] !! 1%nat
    = Some None /\
  parent <$> add 0 (Ref 1) [mkNode None (py "a") []; mkNode None (py "b") []] !! 1%nat
    <> Some (Some 0%nat).
Proof. split_and!; [reflexivity|reflexivity|discriminate]. Qed.

(** ** The parser: control *)

Lemma parse_loop_app (a b : list Token) (st : Parse.state) :
  parse_loop (a ++ b) st = st' ← parse_loop a st; parse_loop b st'.
Proof.
  revert st. induction a as [|t a IH]; intros st; simpl; [done|].
  destruct (parse_step st t); simpl; [apply IH|done].
Qed.

Lemma parse_loop_raise_split (tokens : list Token) (st : Parse.state) (e : exn) :
  parse_loop tokens st = Raise e ->
  exists pre t post st1,
    tokens = pre ++ t :: post /\ parse_loop pre st = Ok st1 /\
    parse_step st1 t = Raise e.
Proof.
  revert st. induction tokens as [|t ts IH]; intros st; simpl; [done|].
  destruct (parse_step st t) as [st'|e'] eqn:E; simpl.
  - intros (pre & t' & post & st1 & -> & Hl & Hs)%IH.
    exists (t :: pre), t', post, st1. simpl. rewrite E. done.
  - intros [= ->]. by exists [], t, ts, st.
Qed.

Lemma depth_app (a b : list Token) : depth (a ++ b) = (depth a + depth b)%Z.
Proof. induction a as [|t a IH]; simpl; lia. Qed.

Lemma ctl_stack_nil (st : Parse.state) :
  ctl st -> (Parse.stack st = [] <-> Parse.node st = None).
Proof.
  unfold ctl. destruct (Parse.node st).
  - intros (_ & ups & ->). split; [|done].
    intros H. by destruct ups.
  - done.
Qed.

Lemma ctl_step (st st' : Parse.state) (t : Token) :
  ctl st -> parse_step st t = Ok st' ->
  ctl st' /\
  Z.of_nat (length (Parse.stack st')) = (Z.of_nat (length (Parse.stack st)) + delta t)%Z /\
  (is_Some (Parse.root st') <-> is_Some (Parse.root st) \/ type t = TOKEN_KEYWORD).
Proof.
  destruct st as [h r n s], t as [ty d]. unfold ctl, delta; simpl.
  intros Hc. destruct ty; simpl.
  - (* WORD *)
    destruct n; [|done]. intros [= <-]; simpl.
    split; [done|]. split; [lia|]. split; [tauto|by intros [?|?]].
  - (* KEYWORD *)
    destruct n as [p|].
    + destruct Hc as (Hr & ups & ->). intros [= <-]; simpl.
      split; [|split; [lia|tauto]].
      split; [done|]. by exists (p :: ups).
    + subst s. destruct r; [done|]. intros [= <-]; simpl.
      split; [|split; [lia|]].
      * split; [by eexists|]. by exists [].
      * split; [intros _; by right|intros _; by eexists].
  - (* OPEN *)
    intros [= <-]; simpl. split; [done|]. split; [lia|].
    split; [tauto|by intros [?|?]].
  - (* CLOSE *)
    destruct s as [|top rest]; [done|]. intros [= <-]; simpl.
    destruct n as [p|]; [|done]. destruct Hc as (Hr & ups & E).
    split; [|split; [lia|split; [tauto|by intros [?|?]]]].
    destruct ups as [|u ups]; simpl in E.
    + by injection E as -> ->.
    + injection E as -> ->. split; [done|]. by exists ups.
Qed.

Lemma ctl_loop (tokens : list Token) (st st' : Parse.state) :
  ctl st -> parse_loop tokens st = Ok st' ->
  ctl st' /\
  Z.of_nat (length (Parse.stack st')) = (Z.of_nat (length (Parse.stack st)) + depth tokens)%Z /\
  (is_Some (Parse.root st') <-> is_Some (Parse.root st) \/ has_keyword tokens).
Proof.
  revert st. induction tokens as [|t ts IH]; intros st Hc; simpl.
  - intros [= <-]. split; [done|]. split; [lia|].
    unfold has_keyword. rewrite Exists_nil. tauto.
  - destruct (parse_step st t) as [st1|] eqn:E; simpl; [|done].
    intros Hl. destruct (ctl_step _ _ _ Hc E) as (Hc1 & Hd1 & Hr1).
    destruct (IH _ Hc1 Hl) as (Hc' & Hd' & Hr').
    split; [done|]. split; [lia|].
    unfold has_keyword in *. rewrite Exists_cons. tauto.
Qed.

Lemma ctl_init : ctl parse_init.
Proof. done. Qed.

Lemma parse_step_raise (st : Parse.state) (t : Token) :
  ctl st ->
  (exists e, parse_step st t = Raise e) <->
  Parse.stack st = [] /\
  (type t = TOKEN_WORD \/ type t = TOKEN_CLOSE \/
   (type t = TOKEN_KEYWORD /\ is_Some (Parse.root st))).
Proof.
  intros Hc. pose proof (ctl_stack_nil st Hc) as Hn.
  destruct st as [h r n s], t as [ty d]; simpl in *.
  destruct ty; simpl.
  - (* WORD *)
    destruct n as [p|]; split.
    + by intros [e ?].
    + intros [E%Hn _]. done.
    + intros _. split; [by apply Hn|by left].
    + intros _. by eexists.
  - (* KEYWORD *)
    destruct n as [p|]; [|destruct r]; split.
    + by intros [e ?].
    + intros [E%Hn _]. done.
    + intros _. split; [by apply Hn|]. right; right. by split.
    + intros _. by eexists.
    + by intros [e ?].
    + intros (_ & [?|[?|[_ [? ?]]]]); done.
  - (* OPEN *)
    split; [by intros [e ?]|]. intros (_ & [?|[?|[? _]]]); done.
  - (* CLOSE *)
    destruct s as [|top rest]; split.
    + intros _. split; [done|]. right; by left.
    + intros _. by eexists.
    + by intros [e ?].
    + by intros [? _].
Qed.

Lemma parse_step_exn (st : Parse.state) (t : Token) (e : exn) :
  parse_step st t = Raise e -> MalformedDocument e.
Proof.
  destruct st as [h r n s], t as [ty d]; unfold MalformedDocument; simpl.
  destruct ty; simpl.
  - destruct n; [done|]. intros [= <-]. tauto.
  - destruct n; [done|]. destruct r; [|done]. intros [= <-]. tauto.
  - done.
  - destruct s; [|done]. intros [= <-]. tauto.
Qed.

(** ** The parser: the store *)

Lemma lookup_app_parent (h l : Store) (r : ref) (x : option ref) :
  parent <$> h !! r = Some x -> parent <$> (h ++ l) !! r = Some x.
Proof.
  destruct (h !! r) as [c|] eqn:E; [|done].
  intros H. by rewrite (lookup_app_l_Some _ _ _ _ E).
Qed.

Lemma child_append_elem (c x : Child) (n : Node) :
  x ∈ child (child_append c n) <-> x ∈ child n \/ x = c.
Proof. simpl. by rewrite elem_of_app, list_elem_of_singleton. Qed.

Lemma store_ok_init : store_ok parse_init.
Proof.
  unfold store_ok; simpl. split_and!; try done.
  intros q Hq. by apply elem_of_nil in Hq.
Qed.

Lemma store_ok_step (st st' : Parse.state) (t : Token) :
  store_ok st -> parse_step st t = Ok st' -> store_ok st'.
Proof.
  destruct st as [h r n s], t as [ty d]; unfold store_ok; simpl.
  intros (H1 & H2 & H3 & H4). destruct ty; simpl.
  - (* WORD *)
    destruct n as [p|]; [|done]. intros [= <-]; simpl.
    split; [|split; [|split]].
    + intros i n r' Hi Hr. rewrite lookup_add in Hi.
      destruct (h !! i) as [n0|] eqn:E; [|done]. injection Hi as <-.
      rewrite lookup_add_parent. apply (H1 i n0 r' E).
      destruct (decide (p = i)); [|done].
      apply child_append_elem in Hr as [Hr|Hr]; [done|discriminate].
    + intros p' Hp. rewrite length_add. by apply H2.
    + intros q Hq. rewrite length_add. by apply H3.
    + intros r' Hr. rewrite lookup_add_parent. by apply H4.
  - (* KEYWORD *)
    destruct n as [p|].
    + intros [= <-]; simpl. specialize (H2 p eq_refl).
      split; [|split; [|split]].
      * intros i n r' Hi Hr. rewrite lookup_add in Hi.
        rewrite lookup_add_parent.
        destruct ((h ++ [mkNode (Some p) d []]) !! i) as [n0|] eqn:E; [|done].
        injection Hi as <-.
        apply lookup_snoc_Some in E as [[Hlt E]|[-> <-]].
        -- destruct (decide (p = i)) as [->|Hne].
           ++ apply child_append_elem in Hr as [Hr|[= ->]].
              ** destruct (H1 i n0 r' E Hr) as [Hl Hp].
                 split; [done|]. by apply lookup_app_parent.
              ** split; [done|]. by rewrite list_lookup_middle.
           ++ destruct (H1 i n0 r' E Hr) as [Hl Hp].
              split; [done|]. by apply lookup_app_parent.
        -- destruct (decide (p = length h)); [lia|].
           simpl in Hr. by apply elem_of_nil in Hr.
      * intros p' [= <-]. rewrite length_add, length_app. simpl. lia.
      * intros q Hq. rewrite length_add, length_app. simpl.
        apply elem_of_cons in Hq as [[= ->]|Hq]; [lia|].
        specialize (H3 q Hq). lia.
      * intros r' Hr. rewrite lookup_add_parent.
        apply lookup_app_parent. by apply H4.
    + destruct r as [r|]; [done|]. intros [= <-]; simpl.
      split; [|split; [|split]].
      * intros i n r' Hi Hr.
        apply lookup_snoc_Some in Hi as [[Hlt E]|[-> <-]].
        -- destruct (H1 i n r' E Hr) as [Hl Hp].
           split; [done|]. by apply lookup_app_parent.
        -- simpl in Hr. by apply elem_of_nil in Hr.
      * intros p' [= <-]. rewrite length_app. simpl. lia.
      * intros q Hq. rewrite length_app. simpl.
        apply elem_of_cons in Hq as [[=]|Hq].
        specialize (H3 q Hq). lia.
      * intros r' [= <-]. by rewrite list_lookup_middle.
  - (* OPEN *)
    intros [= <-]; simpl. done.
  - (* CLOSE *)
    destruct s as [|top rest]; [done|]. intros [= <-]; simpl.
    split; [done|]. split; [|split; [|done]].
    + intros p ->. apply H3. by left.
    + intros q Hq. apply H3. by right.
Qed.

Lemma store_ok_loop (tokens : list Token) (st st' : Parse.state) :
  store_ok st -> parse_loop tokens st = Ok st' -> store_ok st'.
Proof.
  revert st. induction tokens as [|t ts IH]; intros st Hok; simpl.
  - by intros [= <-].
  - destruct (parse_step st t) as [st1|] eqn:E; simpl; [|done].
    apply IH. by apply (store_ok_step st st1 t).
Qed.

(** On a store whose references point forward and inside the store, the
    read of a tree succeeds with the fuel that [parse] gives it. *)
Lemma tree_at_total (h : Store) :
  (forall i n r, h !! i = Some n -> Ref r ∈ child n ->
     (i < r)%nat /\ is_Some (h !! r)) ->
  forall fuel r, (r < length h)%nat -> (length h - r <= fuel)%nat ->
    is_Some (tree_at fuel h r).
Proof.
  intros Hf. induction fuel as [|fuel IH]; intros r Hr Hfuel; [lia|].
  simpl. destruct (lookup_lt_is_Some_2 h r Hr) as [n E]. rewrite E; simpl.
  assert (Hm : is_Some (mapM (fun c =>
                 match c with
                 | Attr s => Some (inl s)
                 | Ref r' => inr <$> tree_at fuel h r'
                 end) (child n))).
  { apply mapM_is_Some, Forall_forall. intros [s|r'] Hc; simpl; [done|].
    destruct (Hf r n r' E Hc) as [Hlt Hs%lookup_lt_is_Some].
    destruct (IH r' Hs) as [t Ht]; [lia|]. by rewrite Ht. }
  destruct Hm as [items ->]. done.
Qed.

Lemma parse_store_inv (D : str) (h : Store) (root : option ref) :
  parse_store D = Ok (h, root) ->
  exists st, parse_loop (tokenize D) parse_init = Ok st /\
    Parse.stack st = [] /\ Parse.heap st = h /\ Parse.root st = root.
Proof.
  unfold parse_store.
  destruct (parse_loop (tokenize D) parse_init) as [st|] eqn:E; simpl; [|done].
  destruct (Parse.stack st) eqn:Es; [|done].
  intros [= <- <-]. by exists st.
Qed.

Lemma parse_store_tree (D : str) (h : Store) (r : ref) :
  parse_store D = Ok (h, Some r) -> is_Some (tree_at (length h) h r).
Proof.
  intros (st & Hl & _ & <- & Hr)%parse_store_inv.
  destruct (store_ok_loop _ _ _ store_ok_init Hl) as (H1 & _ & _ & H4).
  apply tree_at_total.
  - intros i n r' Hi Hc. destruct (H1 i n r' Hi Hc) as [Hlt Hp].
    split; [done|]. destruct (Parse.heap st !! r'); [done|discriminate].
  - specialize (H4 r Hr). apply lookup_lt_is_Some.
    destruct (Parse.heap st !! r); [done|discriminate].
  - lia.
Qed.

(** What [parse] returns is what [parse_store] returns, read as a tree; the
    read never fails. *)
Lemma parse_unfold (D : str) :
  parse D =
    match parse_store D with
    | Raise e => Raise e
    | Ok (h, None) => Ok None
    | Ok (h, Some r) =>
        match tree_at (length h) h r with
        | Some t => Ok (Some t)
        | None => Raise RecursionError
        end
    end.
Proof. unfold parse. by destruct (parse_store D) as [[h [r|]]|]. Qed.

Lemma parse_raise (D : str) (e : exn) :
  parse D = Raise e <-> parse_store D = Raise e.
Proof.
  rewrite parse_unfold. destruct (parse_store D) as [[h [r|]]|e'] eqn:E.
  - destruct (parse_store_tree D h r E) as [t ->]. by split.
  - by split.
  - split; intros [= ->]; done.
Qed.

Lemma parse_store_raise (D : str) :
  (exists e, parse_store D = Raise e) <-> Malformed (tokenize D).
Proof.
  unfold parse_store. split.
  - intros [e He].
    destruct (parse_loop (tokenize D) parse_init) as [st|e'] eqn:E; simpl in He.
    + destruct (ctl_loop _ _ _ ctl_init E) as (_ & Hd & _).
      apply leftover_open. destruct (Parse.stack st); [done|].
      simpl in Hd. lia.
    + apply parse_loop_raise_split in E as (pre & t & post & st1 & Ht & Hl & Hs).
      destruct (ctl_loop _ _ _ ctl_init Hl) as (Hc & Hd & Hr).
      assert (Hex : exists e, parse_step st1 t = Raise e) by eauto.
      apply (parse_step_raise _ _ Hc) in Hex as [Hnil Hty].
      rewrite Hnil in Hd; simpl in Hd.
      destruct Hty as [Hty|[Hty|[Hty Hroot]]].
      * by apply (attribute_outside_node _ pre post t).
      * by apply (unmatched_close _ pre post t).
      * apply (second_root _ pre post t); [done..|].
        apply Hr in Hroot as [Hroot|Hk]; [|done].
        by destruct Hroot.
  - assert (Hpre : forall pre t post,
      tokenize D = pre ++ t :: post -> depth pre = 0%Z ->
      (type t = TOKEN_WORD \/ type t = TOKEN_CLOSE \/
       (type t = TOKEN_KEYWORD /\ has_keyword pre)) ->
      exists e, parse_loop (tokenize D) parse_init = Raise e).
    { intros pre t post -> Hd Hty. rewrite parse_loop_app.
      destruct (parse_loop pre parse_init) as [st1|e1] eqn:E; simpl; [|by eexists].
      destruct (ctl_loop _ _ _ ctl_init E) as (Hc & Hd1 & Hr).
      assert (Hex : exists e, parse_step st1 t = Raise e).
      { apply (parse_step_raise _ _ Hc). split.
        - destruct (Parse.stack st1); [done|]. simpl in Hd1. lia.
        - destruct Hty as [?|[?|[? Hk]]]; [tauto..|].
          right; right. split; [done|]. apply Hr. by right. }
      destruct Hex as [e ->]. by eexists. }
    intros [pre post t Ht Hty Hd Hk|pre post t Ht Hty Hd|pre post t Ht Hty Hd|Hd].
    + destruct (Hpre pre t post) as [e ->]; [tauto..|by eexists].
    + destruct (Hpre pre t post) as [e ->]; [tauto..|by eexists].
    + destruct (Hpre pre t post) as [e ->]; [tauto..|by eexists].
    + destruct (parse_loop (tokenize D) parse_init) as [st|e'] eqn:E; simpl;
        [|by eexists].
      destruct (ctl_loop _ _ _ ctl_init E) as (_ & Hd1 & _).
      destruct (Parse.stack st); [|by eexists].
      simpl in Hd1. lia.
Qed.

Lemma parse_store_exn (D : str) (e : exn) :
  parse_store D = Raise e -> MalformedDocument e.
Proof.
  unfold parse_store.
  destruct (parse_loop (tokenize D) parse_init) as [st|e'] eqn:E; simpl.
  - destruct (Parse.stack st); [done|]. intros [= <-]. by left.
  - intros [= ->].
    apply parse_loop_raise_split in E as (pre & t & post & st1 & _ & _ & Hs).
    by apply parse_step_exn in Hs.
Qed.

(** C3: [parse] fails exactly when the token sequence has a second root
    keyword, an attribute outside any node, a CLOSE with no open context, or
    open contexts left at the end; the failure is a MalformedDocument and
    carries no tree.  The texts [(a (b)] and [(a))] fail. *)
Theorem parse_fails_iff_malformed :
  (forall D : str,
     ((exists e, parse D = Raise e) <-> Malformed (tokenize D)) /\
     (forall e, parse D = Raise e -> MalformedDocument e)) /\
  parse (py "(a (b)") = Raise AssertionError /\
  parse (py "(a))") = Raise IndexError.
Proof.
  split; [|by split].
  intros D. split.
  - rewrite <- parse_store_raise.
    split; intros [e He]; exists e; by apply parse_raise.
  - intros e He%parse_raise. by apply parse_store_exn in He.
Qed.

Lemma parse_fails_iff_malformed_witness :
  Malformed (tokenize (py "(a) b ")) /\
  (exists e, parse (py "(a) b ") = Raise e) /\
  MalformedDocument AttributeError.
Proof.
  assert (HM : Malformed (tokenize (py "(a) b "))).
  { apply (attribute_outside_node _ [OPEN; KEYWORD (py "a"); CLOSE] []
             (WORD (py "b"))); reflexivity. }
  split; [exact HM|]. split.
  - exact (proj2 (proj1 (proj1 parse_fails_iff_malformed (py "(a) b "))) HM).
  - exact (proj2 (proj1 parse_fails_iff_malformed (py "(a) b "))
             AttributeError eq_refl).
Defined.

(** C9: a text that yields no tokens, such as the empty text or a text of
    whitespace only, makes [parse] return [None]: no exception, no tree. *)
Theorem parse_without_tokens (D : str) :
  tokenize D = [] \/ whitespace_only D ->
  parse D = Ok None /\ parse_store D = Ok ([], None).
Proof.
  intros H. assert (Ht : tokenize D = []).
  { destruct H as [H|H]; [done|by apply tokenize_whitespace]. }
  unfold parse, parse_store. rewrite Ht. done.
Qed.

Lemma parse_without_tokens_witness :
  (tokenize [SPACE; NEWLINE; TAB] = [] \/ whitespace_only [SPACE; NEWLINE; TAB]) /\
  parse [SPACE; NEWLINE; TAB] = Ok None /\
  parse [] = Ok None.
Proof.
  split; [left; reflexivity|]. split.
  - exact (proj1 (parse_without_tokens [SPACE; NEWLINE; TAB] (or_introl eq_refl))).
  - exact (proj1 (parse_without_tokens [] (or_intror (Forall_nil_2 _)))).
Defined.

(** C10: in the store built by a successful [parse] the root has no parent,
    and every node child of every node reachable from the root has that
    node as its parent. *)
Theorem parse_parent_links (D : str) (h : Store) (R : ref) :
  parse_store D = Ok (h, Some R) ->
  parent <$> h !! R = Some None /\
  forall N n C, reachable h R N -> h !! N = Some n -> Ref C ∈ child n ->
    parent <$> h !! C = Some (Some N).
Proof.
  intros (st & Hl & _ & <- & Hr)%parse_store_inv.
  destruct (store_ok_loop _ _ _ store_ok_init Hl) as (H1 & _ & _ & H4).
  split; [by apply H4|].
  intros N n C _ HN HC. by destruct (H1 N n C HN HC).
Qed.

Lemma parse_parent_links_witness :
  parse_store (py "(a (b x) y)") =
    Ok ([mkNode None (py "a") [Ref 1; Attr (py "y")];
         mkNode (Some 0%nat) (py "b") [Attr (py "x")]], Some 0%nat) /\
  parent <$> [mkNode None (py "a") [Ref 1; Attr (py "y")];
              mkNode (Some 0%nat) (py "b") [Attr (py "x")]] !! 0%nat = Some None /\
  parent <$> [mkNode None (py "a") [Ref 1; Attr (py "y")];
              mkNode (Some 0%nat) (py "b") [Attr (py "x")]] !! 1%nat = Some (Some 0%nat).
Proof.
  split; [reflexivity|].
  pose proof (parse_parent_links (py "(a (b x) y)")
    [mkNode None (py "a") [Ref 1; Attr (py "y")];
     mkNode (Some 0%nat) (py "b") [Attr (py "x")]] 0%nat eq_refl) as [H0 H1].
  split; [exact H0|].
  apply (H1 0%nat (mkNode None (py "a") [Ref 1; Attr (py "y")]) 1%nat).
  - apply reach_root.
  - reflexivity.
  - by left.
Defined.

(** ** Induction on trees *)

Lemma Tree_induction (P : Tree -> Prop) :
  (forall kw items,
     Forall (fun c => match c with inl _ => True | inr n => P n end) items ->
     P (T kw items)) ->
  forall t, P t.
Proof.
  intros H. fix IH 1. intros [kw items]. apply H.
  induction items as [|c items IHl].
  - apply Forall_nil_2.
  - apply Forall_cons_2; [|exact IHl].
    destruct c as [s|n]; [exact I|apply IH].
Qed.

(** ** The serializer *)

Lemma node_to_tokens_eq (t : Tree) (tokens : list Token) :
  node_to_tokens t tokens = tokens ++ tree_tokens t.
Proof.
  revert tokens. induction t as [kw items IH] using Tree_induction.
  intros tokens. simpl.
  assert (Hfold : forall acc,
    fold_left (fun tokens c =>
                 match c with
                 | inl s => tokens ++ [mkToken TOKEN_WORD s]
                 | inr n => node_to_tokens n tokens
                 end) items acc
    = acc ++ concat (map (fun c => match c with
                                   | inl s => [WORD s]
                                   | inr n => tree_tokens n
                                   end) items)).
  { induction IH as [|c items Hc _ IHl]; intros acc; simpl.
    - by rewrite app_nil_r.
    - rewrite IHl. destruct c as [s|n].
      + by rewrite <- app_assoc.
      + by rewrite Hc, <- app_assoc. }
  rewrite Hfold. unfold OPEN, KEYWORD, CLOSE.
  rewrite <- !app_assoc. reflexivity.
Qed.

Lemma node_to_tokens_nil (t : Tree) : node_to_tokens t [] = tree_tokens t.
Proof. by rewrite node_to_tokens_eq. Qed.

Lemma render_app (a b : list Token) (st : Render.state) :
  render (a ++ b) st = render b (render a st).
Proof. apply fold_left_app. Qed.

Lemma render_tree (t : Tree) (st : Render.state) :
  render (tree_tokens t) st =
    Render.mk (Render.string st ++ node_text (Render.indent st) t)
              (Render.indent st) true.
Proof.
  revert st. induction t as [kw items IH] using Tree_induction.
  intros [s i nl].
  change (tree_tokens (T kw items)) with
    ([OPEN; KEYWORD kw] ++
     concat (map (fun c => match c with
                           | inl s => [WORD s]
                           | inr n => tree_tokens n
                           end) items) ++ [CLOSE]).
  rewrite !render_app. simpl render at 3. simpl Render.string. simpl Render.indent.
  assert (Hitems : forall s0 b,
    render (concat (map (fun c => match c with
                                  | inl s => [WORD s]
                                  | inr n => tree_tokens n
                                  end) items)) (Render.mk s0 (i + 2)%Z b)
    = Render.mk
        (s0 ++ concat (map (fun c => match c with
                                     | inl s => [SPACE] ++ quoted s
                                     | inr n => node_text (i + 2) n
                                     end) items))
        (i + 2)%Z (b || existsb is_node items)).
  { induction IH as [|c items Hc _ IHl]; intros s0 b; simpl.
    - by rewrite app_nil_r, orb_false_r.
    - rewrite render_app. destruct c as [w|n].
      + simpl. rewrite IHl. by rewrite <- !app_assoc.
      + rewrite Hc. simpl. rewrite IHl, orb_true_r. by rewrite <- !app_assoc. }
  rewrite Hitems. simpl. unfold closing.
  replace (i + 2 - 2)%Z with i by lia.
  destruct (existsb is_node items); simpl;
    rewrite <- ?app_assoc; simpl; rewrite <- ?app_assoc; reflexivity.
Qed.

Lemma dump_text (t : Tree) : dump t = node_text 0 t.
Proof.
  unfold dump. by rewrite node_to_tokens_nil, render_tree.
Qed.

Lemma render_leaf (kw : str) (attrs : list str) (st : Render.state) :
  render (node_to_tokens (T kw (map inl attrs)) []) st =
    Render.mk (Render.string st ++ [NEWLINE] ++ spaces (Render.indent st) ++
               [LPAREN] ++ leaf_body kw attrs ++ [RPAREN])
              (Render.indent st) true.
Proof.
  rewrite node_to_tokens_nil, render_tree. f_equal.
  f_equal. simpl. f_equal. unfold leaf_body.
  rewrite <- !app_assoc. do 3 f_equal.
  assert (Hleaf : existsb is_node (map inl attrs) = false)
    by (induction attrs; simpl; auto).
  rewrite Hleaf. simpl. f_equal.
  induction attrs as [|a attrs IH]; simpl; [done|]. by rewrite IH.
Qed.

Lemma render_with_subnode (t : Tree) (st : Render.state) :
  has_subnode t = true ->
  exists body,
    render (node_to_tokens t []) st =
      Render.mk (Render.string st ++ body ++ [NEWLINE] ++
                 spaces (Render.indent st) ++ [RPAREN])
                (Render.indent st) true.
Proof.
  intros Hsub. rewrite node_to_tokens_nil, render_tree.
  destruct t as [kw items]. unfold has_subnode in Hsub; simpl in Hsub.
  exists ([NEWLINE] ++ spaces (Render.indent st) ++ [LPAREN] ++ quoted kw ++
          concat (map (fun c => match c with
                                | inl s => [SPACE] ++ quoted s
                                | inr n => node_text (Render.indent st + 2) n
                                end) items)).
  f_equal. f_equal. simpl node_text. rewrite Hsub. unfold closing.
  rewrite <- ?app_assoc; simpl; rewrite <- ?app_assoc; reflexivity.
Qed.

Lemma quoted_no_newline (w : str) : NEWLINE ∉ w -> NEWLINE ∉ quoted w.
Proof.
  intros Hw. unfold quoted. destruct (must_quote w); [|done].
  rewrite !not_elem_of_app, !list_elem_of_singleton. by split_and!.
Qed.

(** C8, as amended: for a node whose children are all attributes [dump]
    writes the opening bracket, the keyword, each attribute after one space
    and the closing bracket, with no line break of its own in between, so the
    node stands on a single line whenever its keyword and attributes hold no
    newline character; for a node with at least one sub-node the closing
    bracket is written after a line break and the indentation of the
    decreased level.  Both hold at every nesting level. *)
Theorem dump_leaf_line_and_closing_bracket :
  (forall kw attrs st,
     render (node_to_tokens (T kw (map inl attrs)) []) st =
       Render.mk (Render.string st ++ [NEWLINE] ++ spaces (Render.indent st) ++
                  [LPAREN] ++ leaf_body kw attrs ++ [RPAREN])
                 (Render.indent st) true) /\
  (forall kw attrs,
     dump (T kw (map inl attrs)) =
       [NEWLINE] ++ [LPAREN] ++ leaf_body kw attrs ++ [RPAREN] /\
     (Forall (fun w => NEWLINE ∉ w) (kw :: attrs) ->
      NEWLINE ∉ [LPAREN] ++ leaf_body kw attrs ++ [RPAREN])) /\
  (forall t st, has_subnode t = true ->
     exists body,
       render (node_to_tokens t []) st =
         Render.mk (Render.string st ++ body ++ [NEWLINE] ++
                    spaces (Render.indent st) ++ [RPAREN])
                   (Render.indent st) true) /\
  (forall t, has_subnode t = true ->
     exists body, dump t = body ++ [NEWLINE] ++ [RPAREN]).
Proof.
  split_and!.
  - apply render_leaf.
  - intros kw attrs. split.
    + unfold dump. by rewrite render_leaf.
    + intros Hall. apply Forall_cons in Hall as [Hkw Hattrs].
      rewrite !not_elem_of_app, !list_elem_of_singleton.
      split_and!; [done| |done]. unfold leaf_body.
      rewrite not_elem_of_app. split; [by apply quoted_no_newline|].
      induction Hattrs as [|a attrs Ha _ IH]; simpl.
      * apply not_elem_of_nil.
      * rewrite not_elem_of_cons, not_elem_of_app.
        split_and!; [done|by apply quoted_no_newline|done].
  - intros t st. apply render_with_subnode.
  - intros t Hsub. unfold dump.
    destruct (render_with_subnode t render_init Hsub) as [body ->].
    by exists body.
Qed.

Lemma dump_leaf_line_and_closing_bracket_witness :
  Forall (fun w => NEWLINE ∉ w) [py "name"; py "Foo"] /\
  (NEWLINE ∉ [LPAREN] ++ leaf_body (py "name") [py "Foo"] ++ [RPAREN]) /\
  has_subnode (T (py "lib") [inr (T (py "name") [inl (py "Foo")])]) = true /\
  exists body,
    dump (T (py "lib") [inr (T (py "name") [inl (py "Foo")])])
      = body ++ [NEWLINE] ++ [RPAREN].
Proof.
  assert (H : Forall (fun w => NEWLINE ∉ w) [py "name"; py "Foo"]).
  { repeat apply Forall_cons_2; try apply Forall_nil_2;
      intros Hin; simpl in Hin;
      repeat (apply elem_of_cons in Hin as [Hin|Hin]; [discriminate Hin|]);
      by apply elem_of_nil in Hin. }
  split; [exact H|]. split.
  - exact (proj2 (proj1 (proj2 dump_leaf_line_and_closing_bracket)
                    (py "name") [py "Foo"]) H).
  - split; [reflexivity|].
    exact (proj2 (proj2 (proj2 dump_leaf_line_and_closing_bracket))
             (T (py "lib") [inr (T (py "name") [inl (py "Foo")])]) eq_refl).
Defined.

(** C8, as stated, fails: the node [a] with the single attribute
    [x<NEWLINE>y], which is what [parse] builds from [(a "x<NEWLINE>y")],
    has no sub-node, and the text [dump] writes for it has a line break
    between its brackets. *)
Lemma leaf_with_newline_in_attribute :
  has_subnode (T (py "a") [inl (py "x" ++ [NEWLINE] ++ py "y")]) = false /\
  parse (py "(a " ++ [DQUOTE] ++ py "x" ++ [NEWLINE] ++ py "y" ++ [DQUOTE] ++ py ")")
    = Ok (Some (T (py "a") [inl (py "x" ++ [NEWLINE] ++ py "y")])) /\
  dump (T (py "a") [inl (py "x" ++ [NEWLINE] ++ py "y")])
    = [NEWLINE] ++ [LPAREN] ++ (py "a x" ++ [NEWLINE] ++ py "y") ++ [RPAREN] /\
  NEWLINE ∈ py "a x" ++ [NEWLINE] ++ py "y".
Proof.
  split_and!; [reflexivity..|].
  simpl. do 3 right. left.
Qed.

(** ** Reading back what [dump] writes: the tokenizer *)

Lemma contains_false (x : char) (w : str) :
  contains x w = false -> Forall (fun c => (c =? x) = false) w.
Proof.
  unfold contains. induction w as [|c w IH]; simpl; [by constructor|].
  intros [Hc Hw]%orb_false_elim. constructor; [|by apply IH].
  by rewrite N.eqb_sym.
Qed.

Lemma must_quote_false (w : str) :
  must_quote w = false ->
  w <> [] /\
  Forall (fun c => (c =? LPAREN) = false /\ (c =? RPAREN) = false) w.
Proof.
  unfold must_quote.
  intros [[[Hl Hr]%orb_false_elim _]%orb_false_elim Hlen]%orb_false_elim.
  split; [by destruct w|].
  apply contains_false in Hl, Hr. rewrite Forall_forall in *. auto.
Qed.

Lemma scan_in_quote (w : str) (tk : list Token) (m : TokenType) (w0 : str) :
  Forall (fun c => c <> DQUOTE) w ->
  scan w (Scan.mk tk true m w0) = Scan.mk tk true m (w0 ++ w).
Proof.
  intros Hw; revert w0.
  induction Hw as [|c w Hc _ IH]; intros w0; [by rewrite app_nil_r|].
  rewrite scan_cons. simpl. apply N.eqb_neq in Hc. rewrite Hc.
  rewrite IH, <- app_assoc. reflexivity.
Qed.

Lemma scan_bare (w : str) (tk : list Token) (m : TokenType) (w0 : str) :
  Forall (fun c => c <> DQUOTE) w ->
  Forall (fun c => (c =? LPAREN) = false /\ (c =? RPAREN) = false) w ->
  Forall (fun c => isspace c = false) w ->
  scan w (Scan.mk tk false m w0) = Scan.mk tk false m (w0 ++ w).
Proof.
  intros Hq Hp Hs; revert w0.
  induction w as [|c w IH]; intros w0; [by rewrite app_nil_r|].
  apply Forall_cons in Hq as [Hq1 Hq], Hp as [[Hl Hr] Hp], Hs as [Hs1 Hs].
  rewrite scan_cons. simpl. apply N.eqb_neq in Hq1.
  rewrite Hq1, Hl, Hr, Hs1. simpl.
  rewrite (IH Hq Hp Hs), <- app_assoc. reflexivity.
Qed.

Lemma out_idle (tk : list Token) (m : TokenType) :
  out (Scan.mk tk false m []) = tk.
Proof. unfold out, pending. simpl. apply app_nil_r. Qed.

(** A keyword or attribute as [dump] writes it, read from a state with an
    empty buffer: exactly one token with the original value is emitted or
    pending, typed by the mode. *)
Lemma scan_word (w : str) (tk : list Token) (m : TokenType) :
  recoverable w ->
  settled (scan (quoted w) (Scan.mk tk false m [])) /\
  out (scan (quoted w) (Scan.mk tk false m [])) = tk ++ [mkToken m w].
Proof.
  intros [Hdq Hbare]. unfold quoted. destruct (must_quote w) eqn:E.
  - change ([DQUOTE] ++ w ++ [DQUOTE]) with (DQUOTE :: (w ++ [DQUOTE])).
    rewrite scan_cons.
    change (tokenize_step (Scan.mk tk false m []) DQUOTE)
      with (Scan.mk tk true m []).
    rewrite scan_app, scan_in_quote by done. simpl.
    split; [by split|]. apply out_idle.
  - destruct (must_quote_false w E) as [Hne Hp].
    rewrite scan_bare by auto. simpl.
    split.
    + split; [done|]. simpl. intros ->. done.
    + unfold out, pending. simpl. by destruct w.
Qed.

Lemma step_whitespace_out (st : Scan.state) (c : char) :
  Scan.quote st = false -> isspace c = true ->
  Scan.quote (tokenize_step st c) = false /\
  Scan.word (tokenize_step st c) = [] /\
  out (tokenize_step st c) = out st /\
  (settled st -> Scan.word_token (tokenize_step st c) = TOKEN_WORD).
Proof.
  intros Hq Hc. rewrite step_whitespace by done.
  destruct st as [tk q m w]; simpl in *. subst q.
  destruct w as [|a w]; simpl.
  - split_and!; try done. intros [_ Hm]. by apply Hm.
  - split_and!; try done. unfold out, pending. simpl. by rewrite app_nil_r.
Qed.

Lemma whitespace_spaces (i : Z) : whitespace_only (spaces i).
Proof.
  unfold whitespace_only, spaces. apply Forall_forall.
  intros c Hc%list_elem_of_In%repeat_spec. by subst c.
Qed.

(** Whitespace and then a bracket: the pending word is flushed, the bracket
    token follows, the buffer is empty. *)
Lemma scan_bracket (ws : str) (st : Scan.state) :
  whitespace_only ws -> Scan.quote st = false ->
  scan (ws ++ [LPAREN]) st = Scan.mk (out st ++ [OPEN]) false TOKEN_KEYWORD [] /\
  scan (ws ++ [RPAREN]) st = Scan.mk (out st ++ [CLOSE]) false TOKEN_WORD [].
Proof.
  intros Hws; revert st. induction Hws as [|c ws Hc _ IH]; intros st Hq.
  - destruct st as [tk q m w]; simpl in *; subst q.
    unfold out, pending; simpl.
    destruct w; simpl; by rewrite ?app_nil_r.
  - simpl app. rewrite !scan_cons.
    destruct (step_whitespace_out st c Hq Hc) as (Hq' & _ & Ho & _).
    rewrite <- Ho. by apply IH.
Qed.

Lemma scan_node_text (t : Tree) :
  Forall recoverable (tree_words t) ->
  forall i st, Scan.quote st = false ->
    scan (node_text i t) st =
      Scan.mk (out st ++ tree_tokens t) false TOKEN_WORD [].
Proof.
  induction t as [kw items IH] using Tree_induction.
  intros Hrec i st Hq. simpl in Hrec. apply Forall_cons in Hrec as [Hkw Hrec].
  change (node_text i (T kw items)) with
    (([NEWLINE] ++ spaces i) ++ [LPAREN] ++ quoted kw ++
     concat (map (fun c => match c with
                           | inl s => [SPACE] ++ quoted s
                           | inr n => node_text (i + 2) n
                           end) items)
     ++ closing i (existsb is_node items)).
  assert (Hws : whitespace_only ([NEWLINE] ++ spaces i)).
  { apply Forall_cons_2; [done|apply whitespace_spaces]. }
  rewrite app_assoc, scan_app.
  rewrite (proj1 (scan_bracket _ st Hws Hq)).
  rewrite scan_app.
  destruct (scan_word kw (out st ++ [OPEN]) TOKEN_KEYWORD Hkw) as [Hs Ho].
  revert Hs Ho.
  generalize (scan (quoted kw) (Scan.mk (out st ++ [OPEN]) false TOKEN_KEYWORD [])).
  intros st1 Hs1 Ho1. rewrite scan_app.
  assert (Hitems : forall st0, settled st0 ->
    settled (scan (concat (map (fun c => match c with
                           | inl s => [SPACE] ++ quoted s
                           | inr n => node_text (i + 2) n
                           end) items)) st0) /\
    out (scan (concat (map (fun c => match c with
                           | inl s => [SPACE] ++ quoted s
                           | inr n => node_text (i + 2) n
                           end) items)) st0)
    = out st0 ++ concat (map (fun c => match c with
                                       | inl s => [WORD s]
                                       | inr n => tree_tokens n
                                       end) items)).
  { clear Hs1 Ho1 st1. induction IH as [|c items Hc _ IHl]; intros st0 Hs0.
    - simpl. by rewrite app_nil_r.
    - simpl in Hrec. apply Forall_app in Hrec as [Hrc Hrec].
      simpl map. simpl concat. rewrite scan_app.
      destruct c as [s|n].
      + apply Forall_cons in Hrc as [Hrs _].
        change ([SPACE] ++ quoted s) with (SPACE :: quoted s).
        rewrite scan_cons.
        destruct (step_whitespace_out st0 SPACE (proj1 Hs0) eq_refl)
          as (Hq1 & Hw1 & Ho1 & Hm1).
        specialize (Hm1 Hs0). revert Hq1 Hw1 Ho1 Hm1.
        generalize (tokenize_step st0 SPACE). intros [tk q m w].
        cbn [Scan.quote Scan.word Scan.word_token Scan.tokens].
        intros -> -> Ho1 ->. rewrite out_idle in Ho1. subst tk.
        destruct (scan_word s (out st0) TOKEN_WORD Hrs) as [Hs2 Ho2].
        destruct (IHl Hrec _ Hs2) as [Hs3 Ho3].
        split; [exact Hs3|]. etrans; [exact Ho3|].
        rewrite Ho2, <- app_assoc. reflexivity.
      + rewrite (Hc Hrc (i + 2)%Z st0 (proj1 Hs0)).
        destruct (IHl Hrec (Scan.mk (out st0 ++ tree_tokens n) false TOKEN_WORD []))
          as [Hs3 Ho3]; [by split|].
        split; [exact Hs3|]. etrans; [exact Ho3|].
        rewrite out_idle, <- app_assoc. reflexivity. }
  destruct (Hitems st1 Hs1) as [Hs2 Ho2]. revert Hs2 Ho2.
  generalize (scan (concat (map (fun c => match c with
                           | inl s => [SPACE] ++ quoted s
                           | inr n => node_text (i + 2) n
                           end) items)) st1).
  intros st2 [Hq2 _] Ho2.
  assert (Hclose : scan (closing i (existsb is_node items)) st2 =
                   Scan.mk (out st2 ++ [CLOSE]) false TOKEN_WORD []).
  { unfold closing. destruct (existsb is_node items).
    - rewrite app_assoc. by apply scan_bracket.
    - by apply (scan_bracket [] st2); [apply Forall_nil_2|]. }
  rewrite Hclose, Ho2, Ho1. f_equal.
  simpl. rewrite <- !app_assoc. reflexivity.
Qed.

Lemma tokenize_dump (t : Tree) :
  Forall recoverable (tree_words t) ->
  tokenize (dump t) = node_to_tokens t [].
Proof.
  intros Hrec. unfold tokenize.
  rewrite dump_text, node_to_tokens_nil, scan_node_text by done.
  reflexivity.
Qed.

(** ** Reading back what [dump] writes: the parser *)

Lemma represents_agree (h h' : Store) (lo hi : nat) (t : Tree) :
  represents h lo hi t -> agree lo hi h h' -> represents h' lo hi t.
Proof.
  intros [Hlt Hrep] Hag. split; [done|].
  intros h'' fuel Hag' Hfuel. apply Hrep; [|done].
  intros i Hi. by rewrite Hag', Hag.
Qed.

Lemma item_rep_mono (h h' : Store) (lo lo' hi hi' : nat) (c : Child)
    (it : str + Tree) :
  item_rep h lo hi c it -> (lo' <= lo)%nat -> (hi <= hi')%nat ->
  agree lo hi h h' -> item_rep h' lo' hi' c it.
Proof.
  destruct c as [s|j], it as [s'|t]; simpl; try done.
  intros (e & Hj & He & Hrep) Hlo Hhi Hag.
  exists e. split_and!; [lia|lia|].
  apply (represents_agree h); [done|].
  intros i Hi. apply Hag. lia.
Qed.

Lemma extend_nil (n : Node) : extend [] n = n.
Proof. destruct n. unfold extend; simpl. by rewrite app_nil_r. Qed.

Lemma extend_append (c : Child) (cl : list Child) (n : Node) :
  extend cl (child_append c n) = extend (c :: cl) n.
Proof. unfold extend, child_append; simpl. by rewrite <- app_assoc. Qed.

Lemma parse_items (items : list (str + Tree)) :
  Forall (fun c => match c with inl _ => True | inr n => builds n end) items ->
  forall b st, Parse.node st = Some b -> (b < length (Parse.heap st))%nat ->
  exists h' cl,
    parse_loop (concat (map (fun c => match c with
                                      | inl s => [WORD s]
                                      | inr n => tree_tokens n
                                      end) items)) st
      = Ok (Parse.mk h' (Parse.root st) (Some b) (Parse.stack st)) /\
    (length (Parse.heap st) <= length h')%nat /\
    (forall i, (i < length (Parse.heap st))%nat ->
       h' !! i = (if decide (b = i) then extend cl else id) <$> Parse.heap st !! i) /\
    Forall2 (item_rep h' (length (Parse.heap st)) (length h')) cl items.
Proof.
  intros IH b. induction IH as [|c items Hc _ IHl]; intros st Hn Hb.
  - exists (Parse.heap st), []. split_and!.
    + destruct st; simpl in *. by subst.
    + done.
    + intros i Hi. destruct (Parse.heap st !! i) as [n|]; [|done]. simpl.
      destruct (decide (b = i)); [by rewrite extend_nil|done].
    + constructor.
  - simpl map. simpl concat. rewrite parse_loop_app.
    destruct c as [s|n].
    + (* an attribute *)
      destruct st as [h r nd sk]; simpl in Hn, Hb; subst nd. simpl.
      destruct (IHl (Parse.mk (add b (Attr s) h) r (Some b) sk) eq_refl)
        as (h' & cl & Hrun & Hlen & Hlook & Hrep);
        [simpl; by rewrite length_add|].
      simpl in Hrun, Hlen, Hlook, Hrep. rewrite length_add in Hlen, Hlook, Hrep.
      exists h', (Attr s :: cl). split_and!; [done|done| |].
      * intros i Hi. rewrite (Hlook i Hi), lookup_add.
        destruct (h !! i) as [n|]; [|done]. simpl.
        destruct (decide (b = i)); [by rewrite extend_append|done].
      * by constructor.
    + (* a sub-node *)
      destruct (Hc st) as (h1 & Hrun1 & Hlen1 & Hlook1 & Hrep1).
      { unfold entry_ok. by rewrite Hn. }
      rewrite Hrun1, Hn. simpl.
      destruct (IHl (Parse.mk h1 (Parse.root st) (Some b) (Parse.stack st)) eq_refl)
        as (h' & cl & Hrun & Hlen & Hlook & Hrep); [simpl; lia|].
      simpl in Hrun, Hlen, Hlook, Hrep.
      exists h', (Ref (length (Parse.heap st)) :: cl).
      split_and!; [done|lia| |].
      * intros i Hi. rewrite (Hlook i) by lia. rewrite (Hlook1 i Hi), Hn.
        destruct (Parse.heap st !! i) as [n0|]; [|done]. simpl.
        destruct (decide (b = i)) as [->|Hne].
        -- rewrite decide_True by done. by rewrite extend_append.
        -- rewrite decide_False by congruence. done.
      * constructor.
        -- simpl. exists (length h1). split_and!; [lia|lia|].
           apply (represents_agree h1); [done|].
           intros i Hi. rewrite (Hlook i) by lia.
           rewrite decide_False by lia. by destruct (h1 !! i).
        -- eapply Forall2_impl; [exact Hrep|].
           intros c it Hci. apply (item_rep_mono h' h' (length h1) _ (length h') _);
             [done|lia|lia|done].
Qed.

Lemma tree_at_node (h : Store) (b : ref) (fuel : nat) (n : Node)
    (items : list (str + Tree)) :
  h !! b = Some n ->
  Forall2 (fun c it =>
             match c with
             | Attr s => Some (inl s)
             | Ref r' => inr <$> tree_at fuel h r'
             end = Some it) (child n) items ->
  tree_at (S fuel) h b = Some (T (keyword n) items).
Proof.
  intros Hb Hall. simpl. rewrite Hb. simpl.
  apply mapM_Some_2 in Hall. by rewrite Hall.
Qed.

Lemma parse_tree_tokens (t : Tree) : builds t.
Proof.
  induction t as [kw items IH] using Tree_induction.
  intros st Hentry.
  change (tree_tokens (T kw items)) with
    ([OPEN; KEYWORD kw] ++
     concat (map (fun c => match c with
                           | inl s => [WORD s]
                           | inr n => tree_tokens n
                           end) items) ++ [CLOSE]).
  rewrite parse_loop_app.
  destruct st as [h r nd sk]. unfold entry_ok in Hentry; simpl in Hentry.
  set (b := length h).
  pose (new := mkNode nd kw []).
  pose (h1 := match nd with
              | Some p => add p (Ref b) (h ++ [new])
              | None => h ++ [new]
              end).
  pose (r1 := match nd with Some _ => r | None => Some b end).
  assert (Hkw : parse_loop [OPEN; KEYWORD kw] (Parse.mk h r nd sk)
                = Ok (Parse.mk h1 r1 (Some b) (nd :: sk))).
  { subst h1 r1 new b. destruct nd as [p|]; simpl; [done|]. by subst r. }
  assert (Hlen1 : length h1 = S b).
  { subst h1 new. destruct nd; rewrite ?length_add, length_app; simpl; lia. }
  assert (Hnew : h1 !! b = Some new).
  { subst h1. destruct nd as [p|].
    - rewrite lookup_add, decide_False by (subst b; lia).
      by rewrite list_lookup_middle.
    - by rewrite list_lookup_middle. }
  assert (Hold : forall i, (i < b)%nat ->
    h1 !! i = (if decide (nd = Some i) then child_append (Ref b) else id) <$> h !! i).
  { intros i Hi. subst h1. destruct nd as [p|].
    - rewrite lookup_add, lookup_app_l by done.
      destruct (h !! i) as [n0|]; [|done]. simpl.
      destruct (decide (p = i)) as [->|Hne].
      + by rewrite decide_True.
      + rewrite decide_False by congruence. done.
    - rewrite lookup_app_l by done. rewrite decide_False by done.
      by destruct (h !! i). }
  rewrite Hkw. simpl mbind. rewrite parse_loop_app.
  cbn [Parse.heap Parse.root Parse.node Parse.stack].
  destruct (parse_items items IH b (Parse.mk h1 r1 (Some b) (nd :: sk)) eq_refl)
    as (h' & cl & Hrun & Hlen & Hlook & Hrep); [simpl; lia|].
  simpl in Hrun, Hlen, Hlook, Hrep. rewrite Hlen1 in Hlen, Hlook, Hrep.
  rewrite Hrun. simpl.
  exists h'. split_and!.
  - done.
  - lia.
  - intros i Hi. rewrite (Hlook i) by lia. rewrite decide_False by lia.
    rewrite (Hold i Hi). by destruct (h !! i).
  - split; [lia|]. intros h'' fuel Hag Hfuel.
    destruct fuel as [|fuel]; [lia|].
    assert (Hb' : h'' !! b = Some (extend cl new)).
    { rewrite Hag by lia. rewrite (Hlook b) by lia.
      rewrite decide_True by done. by rewrite Hnew. }
    apply (tree_at_node h'' b fuel (extend cl new) items Hb').
    simpl. eapply Forall2_impl; [exact Hrep|].
    intros c it. destruct c as [s|j], it as [s'|t']; simpl; try done.
    + by intros ->.
    + intros (e & Hj & He & [Hlt Hr]).
      rewrite (Hr h'' fuel); [done| |lia].
      intros i Hi. apply Hag. lia.
Qed.

(** Reading a tree back: on the tokens of [t] the parser builds a store from
    which [t] itself is read. *)
Lemma parse_tokens_of_tree (data : str) (t : Tree) :
  tokenize data = node_to_tokens t [] -> parse data = Ok (Some t).
Proof.
  intros Htok. unfold parse, parse_store.
  rewrite Htok, node_to_tokens_nil.
  destruct (parse_tree_tokens t parse_init eq_refl)
    as (h' & Hrun & Hlen & _ & [_ Hrep]).
  assert (Ht : tree_at (length h') h' 0 = Some t).
  { apply Hrep; [by intros i _|lia]. }
  rewrite Hrun. simpl. by rewrite Ht.
Qed.

Lemma must_quote_spec (w : str) :
  must_quote w = true <-> LPAREN ∈ w \/ RPAREN ∈ w \/ SPACE ∈ w \/ w = [].
Proof.
  assert (Hc : forall x, contains x w = true <-> x ∈ w).
  { intros x. unfold contains. rewrite existsb_exists. split.
    - intros (c & Hin & ->%N.eqb_eq). by apply list_elem_of_In.
    - intros Hin. exists x. split; [by apply list_elem_of_In|apply N.eqb_refl]. }
  unfold must_quote. rewrite !orb_true_iff, !Hc, Nat.eqb_eq.
  destruct w; simpl; intuition congruence.
Qed.

(** C2, as amended: [dump] writes a keyword or attribute between double
    quotes exactly when it contains a bracket or a space or is empty, and
    bare otherwise; when every value of the tree is free of double quotes
    and, where written bare, free of whitespace, the tokenizer reads the
    written text back to the very tokens of the tree, every value exact, and
    [parse] reads back the tree itself. *)
Theorem quoting_and_recovery :
  (forall w : str,
     (must_quote w = true <-> LPAREN ∈ w \/ RPAREN ∈ w \/ SPACE ∈ w \/ w = []) /\
     (must_quote w = true -> quoted w = [DQUOTE] ++ w ++ [DQUOTE]) /\
     (must_quote w = false -> quoted w = w)) /\
  (forall t : Tree, dump t = node_text 0 t) /\
  (forall t : Tree,
     Forall recoverable (tree_words t) ->
     tokenize (dump t) = node_to_tokens t [] /\
     parse (dump t) = Ok (Some t)).
Proof.
  split_and!.
  - intros w. split_and!.
    + apply must_quote_spec.
    + unfold quoted. by intros ->.
    + unfold quoted. by intros ->.
  - apply dump_text.
  - intros t Hrec. pose proof (tokenize_dump t Hrec) as Htok.
    split; [done|]. by apply parse_tokens_of_tree.
Qed.

Lemma quoting_and_recovery_witness :
  Forall recoverable
    (tree_words (T (py "lib") [inr (T (py "name") [inl (py "Foo Bar")]); inl []])) /\
  dump (T (py "lib") [inr (T (py "name") [inl (py "Foo Bar")]); inl []])
    = [NEWLINE] ++ py "(lib" ++ [NEWLINE] ++ py "  (name " ++ [DQUOTE] ++
      py "Foo Bar" ++ [DQUOTE] ++ py ") " ++ [DQUOTE; DQUOTE] ++ [NEWLINE] ++ py ")" /\
  parse (dump (T (py "lib") [inr (T (py "name") [inl (py "Foo Bar")]); inl []]))
    = Ok (Some (T (py "lib") [inr (T (py "name") [inl (py "Foo Bar")]); inl []])).
Proof.
  assert (H : Forall recoverable
    (tree_words (T (py "lib") [inr (T (py "name") [inl (py "Foo Bar")]); inl []]))).
  { simpl. repeat apply Forall_cons_2; try apply Forall_nil_2;
      (split;
       [ repeat (apply Forall_cons_2; [discriminate|]); apply Forall_nil_2
       | intros Hq; vm_compute in Hq;
         first [ discriminate Hq
               | repeat (apply Forall_cons_2; [reflexivity|]); apply Forall_nil_2 ] ]). }
  split; [exact H|]. split; [reflexivity|].
  exact (proj2 (proj2 (proj2 quoting_and_recovery) _ H)).
Defined.

(** C2, as stated, fails: the value [x<DQUOTE>y] holds no bracket and no space, so
    [dump] writes it bare; the double quote then opens a quotation that
    never ends, no token carries the value and [parse] rejects the text. *)
Lemma value_with_double_quote_is_lost :
  must_quote (py "x" ++ [DQUOTE] ++ py "y") = false /\
  dump (T (py "a") [inl (py "x" ++ [DQUOTE] ++ py "y")])
    = [NEWLINE] ++ py "(a x" ++ [DQUOTE] ++ py "y)" /\
  tokenize (dump (T (py "a") [inl (py "x" ++ [DQUOTE] ++ py "y")]))
    = [OPEN; KEYWORD (py "a")] /\
  parse (dump (T (py "a") [inl (py "x" ++ [DQUOTE] ++ py "y")]))
    = Raise AssertionError.
Proof. split_and!; reflexivity. Qed.

(** ** No value read by [parse] holds a double quote *)

Lemma tokenize_step_clean (st : Scan.state) (c : char) :
  Forall (fun t => clean (data t)) (Scan.tokens st) -> clean (Scan.word st) ->
  Forall (fun t => clean (data t)) (Scan.tokens (tokenize_step st c)) /\
  clean (Scan.word (tokenize_step st c)).
Proof.
  destruct st as [tk q m w]; simpl. intros Htk Hw. unfold clean in *.
  destruct (c =? DQUOTE) eqn:Ed.
  - destruct q; simpl; [|done].
    split; [|constructor]. apply Forall_app_2; [done|]. by constructor.
  - apply N.eqb_neq in Ed. rewrite !andb_false_r.
    assert (Hwc : Forall (fun c0 => c0 <> DQUOTE) (w ++ [c])).
    { apply Forall_app_2; [done|]. by constructor. }
    destruct q; simpl; [done|].
    destruct ((c =? LPAREN) || (c =? RPAREN)).
    + destruct (nonempty w); simpl.
      * split; [|constructor]. repeat apply Forall_app_2; try done;
          constructor; try done; simpl; by constructor.
      * split; [|done]. apply Forall_app_2; [done|].
        constructor; [|done]. simpl. by constructor.
    + destruct (isspace c); [|done].
      destruct (nonempty w); simpl; [|done].
      split; [|constructor]. apply Forall_app_2; [done|]. by constructor.
Qed.

Lemma tokenize_clean (data0 : str) :
  Forall (fun t => clean (data t)) (tokenize data0).
Proof.
  unfold tokenize, scan.
  assert (H : forall st,
    Forall (fun t => clean (data t)) (Scan.tokens st) -> clean (Scan.word st) ->
    Forall (fun t => clean (data t))
      (Scan.tokens (fold_left tokenize_step data0 st))).
  { induction data0 as [|c data0 IH]; intros st Htk Hw; simpl; [done|].
    destruct (tokenize_step_clean st c Htk Hw). by apply IH. }
  apply H; constructor.
Qed.

Lemma add_clean (p : ref) (c : Child) (h : Store) :
  Forall clean_node h ->
  match c with Attr s => clean s | Ref _ => True end ->
  Forall clean_node (add p c h).
Proof.
  intros Hh Hc. unfold add. apply Forall_alter; [done|].
  intros n _ [Hk Hch]. split; [done|]. simpl.
  apply Forall_app_2; [done|]. by constructor.
Qed.

Lemma parse_step_clean (st st' : Parse.state) (t : Token) :
  clean (data t) -> Forall clean_node (Parse.heap st) ->
  parse_step st t = Ok st' -> Forall clean_node (Parse.heap st').
Proof.
  destruct st as [h r nd sk], t as [ty d]; simpl. intros Hd Hh.
  assert (Hnew : forall p, Forall clean_node (h ++ [mkNode p d []])).
  { intros p. apply Forall_app_2; [done|]. constructor; [|done].
    split; [done|constructor]. }
  destruct ty; simpl.
  - destruct nd; [|done]. intros [= <-]; simpl. by apply add_clean.
  - destruct nd as [p|].
    + intros [= <-]; simpl. by apply add_clean.
    + destruct r; [done|]. intros [= <-]; simpl. done.
  - by intros [= <-].
  - destruct sk; [done|]. by intros [= <-].
Qed.

Lemma parse_loop_clean (tokens : list Token) (st st' : Parse.state) :
  Forall (fun t => clean (data t)) tokens -> Forall clean_node (Parse.heap st) ->
  parse_loop tokens st = Ok st' -> Forall clean_node (Parse.heap st').
Proof.
  intros Htk; revert st. induction Htk as [|t ts Ht _ IH]; intros st Hh; simpl.
  - by intros [= <-].
  - destruct (parse_step st t) as [st1|] eqn:E; simpl; [|done].
    apply IH. by apply (parse_step_clean st st1 t).
Qed.

Lemma tree_at_clean (h : Store) :
  Forall clean_node h ->
  forall fuel r t, tree_at fuel h r = Some t -> Forall clean (tree_words t).
Proof.
  intros Hh. induction fuel as [|fuel IH]; intros r t; simpl; [done|].
  destruct (h !! r) as [n|] eqn:En; simpl; [|done].
  destruct (mapM _ (child n)) as [items|] eqn:Em; simpl; [|done].
  intros [= <-]. simpl.
  destruct (Forall_lookup_1 _ _ _ _ Hh En) as [Hk Hch].
  constructor; [done|].
  apply mapM_Some_1 in Em. clear En.
  induction Em as [|c it cl items Hc _ IHl]; simpl; [constructor|].
  apply Forall_cons in Hch as [Hc1 Hch].
  apply Forall_app_2; [|by apply IHl].
  destruct c as [s|j].
  - injection Hc as <-. by constructor.
  - destruct (tree_at fuel h j) as [t'|] eqn:Et; simpl in Hc; [|done].
    injection Hc as <-. by apply (IH j).
Qed.

Lemma parse_clean (D : str) (t : Tree) :
  parse D = Ok (Some t) -> Forall clean (tree_words t).
Proof.
  rewrite parse_unfold.
  destruct (parse_store D) as [[h [r|]]|] eqn:E; [|done..].
  destruct (tree_at (length h) h r) as [t'|] eqn:Et; [|done].
  intros [= <-].
  apply parse_store_inv in E as (st & Hl & _ & <- & _).
  apply (tree_at_clean (Parse.heap st)) in Et; [done|].
  apply (parse_loop_clean _ _ _ (tokenize_clean D)) in Hl; [done|constructor].
Qed.

(** ** Round trip *)

(** X12: the round trip holds for every document whose values, where [dump]
    writes them bare, hold no whitespace: parsing what [dump] writes for the
    parsed tree gives that tree again. *)
Corollary roundtrip_without_bare_whitespace (D : str) (t : Tree) :
  parse D = Ok (Some t) ->
  Forall (fun w => must_quote w = false -> Forall (fun c => isspace c = false) w)
         (tree_words t) ->
  parse (dump t) = Ok (Some t).
Proof.
  intros Hp Hws. apply parse_tokens_of_tree, tokenize_dump.
  pose proof (parse_clean D t Hp) as Hc.
  rewrite Forall_forall in *. intros w Hw. split; [by apply Hc|by apply Hws].
Qed.

(** C1 on the code: the text [(a "b<TAB>c")] parses to the node [a] with the
    single attribute [b<TAB>c]; [dump] writes that attribute bare, because
    its quoting test looks for brackets and the space character only; the
    written text parses to the node [a] with the two attributes [b] and
    [c]. *)
Theorem roundtrip_splits_attribute_with_tab :
  parse (py "(a " ++ [DQUOTE] ++ py "b" ++ [TAB] ++ py "c" ++ [DQUOTE] ++ py ")")
    = Ok (Some (T (py "a") [inl (py "b" ++ [TAB] ++ py "c")])) /\
  dump (T (py "a") [inl (py "b" ++ [TAB] ++ py "c")])
    = [NEWLINE] ++ py "(a b" ++ [TAB] ++ py "c)" /\
  parse (dump (T (py "a") [inl (py "b" ++ [TAB] ++ py "c")]))
    = Ok (Some (T (py "a") [inl (py "b"); inl (py "c")])) /\
  T (py "a") [inl (py "b"); inl (py "c")]
    <> T (py "a") [inl (py "b" ++ [TAB] ++ py "c")].
Proof. split_and!; [reflexivity..|discriminate]. Qed.

(** * Further properties of the code *)

(** ** The read-only methods *)

Lemma children_app (p : option ref) (k : str) (l1 l2 : list Child) :
  children (mkNode p k (l1 ++ l2)) =
    children (mkNode p k l1) ++ children (mkNode p k l2).
Proof. unfold children; simpl. apply omap_app. Qed.

Lemma attributes_app (p : option ref) (k : str) (l1 l2 : list Child) :
  attributes (mkNode p k (l1 ++ l2)) =
    attributes (mkNode p k l1) ++ attributes (mkNode p k l2).
Proof. unfold attributes; simpl. apply omap_app. Qed.

Lemma findall_app (h : Store) (p : option ref) (k kw : str) (l1 l2 : list Child) :
  findall h (mkNode p k (l1 ++ l2)) kw =
    findall h (mkNode p k l1) kw ++ findall h (mkNode p k l2) kw.
Proof. unfold findall. by rewrite children_app, filter_app. Qed.

Lemma elem_of_children (self : Node) (r : ref) :
  r ∈ children self <-> Ref r ∈ child self.
Proof.
  unfold children. rewrite list_elem_of_omap. split.
  - intros ([s|r'] & Hin & [= ->]). done.
  - intros Hin. by exists (Ref r).
Qed.

Lemma elem_of_attributes (self : Node) (s : str) :
  s ∈ attributes self <-> Attr s ∈ child self.
Proof.
  unfold attributes. rewrite list_elem_of_omap. split.
  - intros ([s'|r'] & Hin & [= ->]). done.
  - intros Hin. by exists (Attr s).
Qed.

(** X1: [children] and [attributes] split the child sequence: every element
    is in exactly one of them, and each keeps the order of the sequence. *)
Theorem children_attributes_partition (self : Node) :
  (length (children self) + length (attributes self) = length (child self))%nat /\
  (Ref <$> children self) `sublist_of` child self /\
  (Attr <$> attributes self) `sublist_of` child self /\
  (forall r, r ∈ children self <-> Ref r ∈ child self) /\
  (forall s, s ∈ attributes self <-> Attr s ∈ child self).
Proof.
  split_and!.
  - unfold children, attributes.
    induction (child self) as [|[s|r] l IH]; csimpl; lia.
  - unfold children.
    induction (child self) as [|[s|r] l IH]; csimpl.
    + constructor.
    + by apply sublist_cons.
    + by apply sublist_skip.
  - unfold attributes.
    induction (child self) as [|[s|r] l IH]; csimpl.
    + constructor.
    + by apply sublist_skip.
    + by apply sublist_cons.
  - apply elem_of_children.
  - apply elem_of_attributes.
Qed.

Lemma find_head (h : Store) (self : Node) (kw : str) :
  find h self kw = head (findall h self kw).
Proof. unfold find. by destruct (findall h self kw). Qed.

Lemma elem_of_findall (h : Store) (self : Node) (kw : str) (r : ref) :
  r ∈ findall h self kw <->
  Ref r ∈ child self /\ keyword <$> h !! r = Some kw.
Proof.
  unfold findall. rewrite list_elem_of_filter, elem_of_children. tauto.
Qed.

Lemma findall_nil (h : Store) (self : Node) (kw : str) :
  findall h self kw = [] <->
  forall r, Ref r ∈ child self -> keyword <$> h !! r <> Some kw.
Proof.
  split.
  - intros Hnil r Hin Hk.
    assert (Hr : r ∈ findall h self kw) by (by apply elem_of_findall).
    rewrite Hnil in Hr. by apply elem_of_nil in Hr.
  - intros Hno. apply elem_of_nil_inv. intros r [Hin Hk]%elem_of_findall.
    by apply (Hno r).
Qed.

(** The first child node with the keyword, with what precedes and follows
    it in the child sequence. *)
Lemma find_split (h : Store) (self : Node) (kw : str) (r : ref) :
  find h self kw = Some r ->
  exists l1 l2,
    child self = l1 ++ Ref r :: l2 /\
    keyword <$> h !! r = Some kw /\
    findall h (mkNode (parent self) (keyword self) l1) kw = [] /\
    findall h self kw =
      r :: findall h (mkNode (parent self) (keyword self) l2) kw.
Proof.
  destruct self as [p k l]. simpl. rewrite find_head.
  assert (Hone : forall r0,
    findall h (mkNode p k [Ref r0]) kw =
      if decide (keyword <$> h !! r0 = Some kw) then [r0] else []).
  { intros r0. unfold findall.
    change (children (mkNode p k [Ref r0])) with [r0].
    rewrite filter_cons, filter_nil. by destruct (decide _). }
  induction l as [|c l IH]; [done|].
  change (c :: l) with ([c] ++ l). rewrite findall_app.
  destruct c as [s|r0].
  - change (findall h (mkNode p k [Attr s]) kw) with (@nil ref).
    rewrite app_nil_l.
    intros (l1 & l2 & -> & Hk & Hnil & Hall)%IH.
    exists ([Attr s] ++ l1), l2. split_and!; [done|done| |done].
    by rewrite findall_app.
  - rewrite Hone.
    destruct (decide (keyword <$> h !! r0 = Some kw)) as [Hk|Hk].
    + intros [= <-]. exists [], l. by split_and!.
    + rewrite app_nil_l.
      intros (l1 & l2 & -> & Hk' & Hnil & Hall)%IH.
      exists ([Ref r0] ++ l1), l2. split_and!; [done|done| |done].
      rewrite findall_app, Hone, Hnil. by rewrite decide_False.
Qed.

(** X2: [findall] returns exactly the child nodes that carry the keyword, in
    the order of the child sequence; [find] returns the first of them, and
    [None] exactly when no child node carries the keyword. *)
Theorem find_findall_contract (h : Store) (self : Node) (kw : str) :
  (forall r, r ∈ findall h self kw <->
     r ∈ children self /\ keyword <$> h !! r = Some kw) /\
  findall h self kw `sublist_of` children self /\
  find h self kw = head (findall h self kw) /\
  (find h self kw = None <->
     forall r, r ∈ children self -> keyword <$> h !! r <> Some kw) /\
  (forall r, find h self kw = Some r ->
     exists l1 l2,
       child self = l1 ++ Ref r :: l2 /\
       keyword <$> h !! r = Some kw /\
       forall r', Ref r' ∈ l1 -> keyword <$> h !! r' <> Some kw).
Proof.
  split_and!.
  - intros r. rewrite elem_of_findall, elem_of_children. tauto.
  - unfold findall. apply sublist_filter.
  - apply find_head.
  - rewrite find_head. destruct (findall h self kw) as [|r0 l] eqn:E; simpl.
    + split; [|done]. intros _ r Hr%elem_of_children.
      by apply (proj1 (findall_nil h self kw) E).
    + split; [done|]. intros Hno. exfalso.
      assert (Hr : r0 ∈ findall h self kw) by (rewrite E; left).
      apply elem_of_findall in Hr as [Hin Hk].
      by apply (Hno r0); [apply elem_of_children|].
  - intros r (l1 & l2 & Hc & Hk & Hnil & _)%find_split.
    exists l1, l2. split_and!; [done..|].
    by apply (proj1 (findall_nil h _ kw) Hnil).
Qed.

Lemma find_findall_contract_witness :
  find [mkNode None (py "lib") [Attr (py "x"); Ref 1; Ref 2];
        mkNode (Some 0%nat) (py "name") []; mkNode (Some 0%nat) (py "uri") []]
       (mkNode None (py "lib") [Attr (py "x"); Ref 1; Ref 2]) (py "uri")
    = Some 2%nat /\
  exists l1 l2,
    [Attr (py "x"); Ref 1; Ref 2] = l1 ++ Ref 2 :: l2 /\
    keyword <$> [mkNode None (py "lib") [Attr (py "x"); Ref 1; Ref 2];
                 mkNode (Some 0%nat) (py "name") [];
                 mkNode (Some 0%nat) (py "uri") []] !! 2%nat = Some (py "uri") /\
    forall r', Ref r' ∈ l1 ->
      keyword <$> [mkNode None (py "lib") [Attr (py "x"); Ref 1; Ref 2];
                   mkNode (Some 0%nat) (py "name") [];
                   mkNode (Some 0%nat) (py "uri") []] !! r' <> Some (py "uri").
Proof.
  split; [reflexivity|].
  exact (proj2 (proj2 (proj2 (proj2 (find_findall_contract
    [mkNode None (py "lib") [Attr (py "x"); Ref 1; Ref 2];
     mkNode (Some 0%nat) (py "name") []; mkNode (Some 0%nat) (py "uri") []]
    (mkNode None (py "lib") [Attr (py "x"); Ref 1; Ref 2]) (py "uri")))))
    2%nat eq_refl).
Defined.

Lemma has_spec (self : Node) (attr : str) :
  has self attr = true <-> Attr attr ∈ child self.
Proof.
  unfold has. rewrite existsb_exists, <- elem_of_attributes. split.
  - intros (a & Hin%list_elem_of_In & ->%bool_decide_eq_true). done.
  - intros Hin. exists attr. split; [by apply list_elem_of_In|].
    by apply bool_decide_eq_true.
Qed.

Lemma node_eta (self : Node) :
  mkNode (parent self) (keyword self) (child self) = self.
Proof. by destruct self. Qed.

Lemma list_remove_middle (c : Child) (l1 l2 : list Child) :
  c ∉ l1 -> list_remove c (l1 ++ c :: l2) = Ok (l1 ++ l2).
Proof.
  induction l1 as [|y l1 IH]; simpl; intros Hn.
  - by rewrite bool_decide_eq_true_2.
  - apply not_elem_of_cons in Hn as [Hy Hn].
    rewrite bool_decide_eq_false_2 by congruence. by rewrite IH.
Qed.

Lemma list_index_middle (c : Child) (l1 l2 : list Child) :
  c ∉ l1 -> list_index c (l1 ++ c :: l2) = Ok (length l1).
Proof.
  induction l1 as [|y l1 IH]; simpl; intros Hn.
  - by rewrite bool_decide_eq_true_2.
  - apply not_elem_of_cons in Hn as [Hy Hn].
    rewrite bool_decide_eq_false_2 by congruence. by rewrite IH.
Qed.

Lemma remove_middle (p : option ref) (k : str) (c : Child) (l1 l2 : list Child) :
  c ∉ l1 -> remove (mkNode p k (l1 ++ c :: l2)) c = Ok (mkNode p k (l1 ++ l2)).
Proof.
  intros Hn. unfold remove; simpl.
  rewrite (proj2 (list_in_spec c (l1 ++ c :: l2))).
  - by rewrite list_remove_middle.
  - apply elem_of_app. right. by left.
Qed.

Lemma replace_middle (p : option ref) (k : str) (c new_child : Child)
    (l1 l2 : list Child) :
  c ∉ l1 ->
  replace (mkNode p k (l1 ++ c :: l2)) c new_child =
    Ok (mkNode p k (l1 ++ new_child :: l2)).
Proof.
  intros Hn. unfold replace; simpl.
  rewrite (proj2 (list_in_spec c (l1 ++ c :: l2))).
  - rewrite list_index_middle by done. simpl.
    by rewrite insert_app_r_alt, Nat.sub_diag.
  - apply elem_of_app. right. by left.
Qed.

(** X3: [has] is true exactly for the strings that are direct attributes of
    the node, and these are exactly the attributes that [remove] accepts. *)
Theorem has_iff_attribute (self : Node) (attr : str) :
  (has self attr = true <-> attr ∈ attributes self) /\
  (has self attr = true <->
     exists self', remove self (Attr attr) = Ok self') /\
  (has self attr = false <-> remove self (Attr attr) = Raise AssertionError).
Proof.
  pose proof (has_spec self attr) as Hh.
  assert (Hok : Attr attr ∈ child self ->
                exists self', remove self (Attr attr) = Ok self').
  { intros Hin. unfold remove.
    rewrite (proj2 (list_in_spec _ _) Hin).
    destruct (list_remove_spec _ _ Hin) as (l1 & l2 & _ & _ & ->).
    by eexists. }
  assert (Hno : Attr attr ∉ child self ->
                remove self (Attr attr) = Raise AssertionError).
  { intros Hn. unfold remove.
    destruct (list_in (Attr attr) (child self)) eqn:E; [|done].
    by apply list_in_spec in E. }
  split_and!.
  - by rewrite Hh, elem_of_attributes.
  - split; [intros H%Hh; by apply Hok|].
    intros [self' Hr]. apply Hh.
    destruct (decide (Attr attr ∈ child self)) as [|Hn]; [done|].
    rewrite (Hno Hn) in Hr. discriminate.
  - rewrite <- not_true_iff_false, Hh. split; [apply Hno|].
    intros Hr Hin. destruct (Hok Hin) as [self' Hr']. congruence.
Qed.

(** X4: [remove] after [add] of the same child.  When the child was not in
    the sequence the node is as before; when it was, [remove] deletes the
    earlier occurrence and the added one stays at the end. *)
Theorem remove_after_add (self : Node) (c : Child) :
  (c ∉ child self -> remove (child_append c self) c = Ok self) /\
  (forall l1 l2, child self = l1 ++ c :: l2 -> c ∉ l1 ->
     remove (child_append c self) c =
       Ok (mkNode (parent self) (keyword self) (l1 ++ l2 ++ [c]))).
Proof.
  split.
  - intros Hn. unfold child_append.
    rewrite remove_middle by done. by rewrite app_nil_r, node_eta.
  - intros l1 l2 Hc Hn. unfold child_append. rewrite Hc, <- app_assoc.
    simpl. by rewrite remove_middle.
Qed.

Lemma remove_after_add_witness :
  (Ref 3 ∉ child (mkNode None (py "a") [Attr (py "x"); Ref 1])) /\
  remove (child_append (Ref 3) (mkNode None (py "a") [Attr (py "x"); Ref 1])) (Ref 3)
    = Ok (mkNode None (py "a") [Attr (py "x"); Ref 1]).
Proof.
  assert (H : Ref 3 ∉ child (mkNode None (py "a") [Attr (py "x"); Ref 1])).
  { simpl. rewrite !not_elem_of_cons. split_and!; [done|done|apply not_elem_of_nil]. }
  split; [exact H|].
  exact (proj1 (remove_after_add
    (mkNode None (py "a") [Attr (py "x"); Ref 1]) (Ref 3)) H).
Defined.

(** The keywords [findall] reads are those of the child nodes only, so
    objects created later in the store do not change its result. *)
Lemma findall_store_grows (h h2 : Store) (self : Node) (kw : str) :
  (forall c, Ref c ∈ child self -> (c < length h)%nat) ->
  findall (h ++ h2) self kw = findall h self kw.
Proof.
  intros Hl. unfold findall.
  assert (Hc : forall c, c ∈ children self -> (c < length h)%nat).
  { intros c Hin. by apply Hl, elem_of_children. }
  induction (children self) as [|c l IH]; [done|].
  rewrite !filter_cons, lookup_app_l by (apply Hc; left).
  rewrite IH; [done|]. intros c' Hin. apply Hc. by right.
Qed.

(** X5: replacing the node that [find] returns for a keyword by a node built
    just then with the same keyword (the way the footprint preprocessing
    rewrites an [at] node): [replace] succeeds, [find] now returns the new
    node, the other matches follow as before, and the attributes are
    untouched. *)
Theorem replace_found_child (h : Store) (self : Node) (kw : str) (r : ref)
    (p : option ref) (args : list Child) :
  find h self kw = Some r ->
  (forall c, c ∈ children self -> (c < length h)%nat) ->
  exists self',
    replace self (Ref r) (Ref (snd (Node_new h p kw args))) = Ok self' /\
    find (fst (Node_new h p kw args)) self' kw
      = Some (snd (Node_new h p kw args)) /\
    findall (fst (Node_new h p kw args)) self' kw
      = snd (Node_new h p kw args) :: tail (findall h self kw) /\
    attributes self' = attributes self /\
    length (child self') = length (child self).
Proof.
  intros Hfind Hvalid. simpl.
  destruct (find_split h self kw r Hfind) as (l1 & l2 & Hc & Hk & Hnil & Hall).
  assert (Hr1 : Ref r ∉ l1).
  { intros Hin. by apply (proj1 (findall_nil h _ kw) Hnil r). }
  exists (mkNode (parent self) (keyword self) (l1 ++ Ref (length h) :: l2)).
  assert (Hsame : forall l,
    (forall c, Ref c ∈ l -> (c < length h)%nat) ->
    findall (h ++ [mkNode p kw args]) (mkNode (parent self) (keyword self) l) kw
    = findall h (mkNode (parent self) (keyword self) l) kw).
  { intros l Hl. by apply findall_store_grows. }
  assert (Hv : forall c, Ref c ∈ l1 ++ Ref r :: l2 -> (c < length h)%nat).
  { intros c Hin. apply Hvalid, elem_of_children. by rewrite Hc. }
  assert (Hfa : findall (h ++ [mkNode p kw args])
            (mkNode (parent self) (keyword self) (l1 ++ Ref (length h) :: l2)) kw
          = length h :: tail (findall h self kw)).
  { change (Ref (length h) :: l2) with ([Ref (length h)] ++ l2).
    rewrite !findall_app, (Hsame l1), (Hsame l2).
    - rewrite Hnil, Hall. simpl. f_equal.
      unfold findall.
      change (children (mkNode (parent self) (keyword self) [Ref (length h)]))
        with [length h].
      rewrite filter_cons_True, filter_nil; [done|].
      by rewrite list_lookup_middle.
    - intros c Hin. apply Hv. rewrite elem_of_app, elem_of_cons. tauto.
    - intros c Hin. apply Hv. rewrite elem_of_app. tauto. }
  split_and!.
  - rewrite <- (node_eta self) at 1. rewrite Hc. by apply replace_middle.
  - by rewrite find_head, Hfa.
  - exact Hfa.
  - unfold attributes. cbn [child]. rewrite Hc, !omap_app. done.
  - cbn [child]. rewrite Hc, !length_app. done.
Qed.

Lemma replace_found_child_witness :
  find [mkNode None (py "pad") [Ref 1; Attr (py "x")];
        mkNode (Some 0%nat) (py "at") [Attr (py "1"); Attr (py "2")]]
       (mkNode None (py "pad") [Ref 1; Attr (py "x")]) (py "at") = Some 1%nat /\
  (forall c, c ∈ children (mkNode None (py "pad") [Ref 1; Attr (py "x")]) ->
     (c < 2)%nat) /\
  exists self',
    replace (mkNode None (py "pad") [Ref 1; Attr (py "x")]) (Ref 1) (Ref 2)
      = Ok self' /\
    find [mkNode None (py "pad") [Ref 1; Attr (py "x")];
          mkNode (Some 0%nat) (py "at") [Attr (py "1"); Attr (py "2")];
          mkNode (Some 0%nat) (py "at") [Attr (py "1"); Attr (py "2"); Attr (py "0.000")]]
         self' (py "at") = Some 2%nat.
Proof.
  assert (Hv : forall c,
    c ∈ children (mkNode None (py "pad") [Ref 1; Attr (py "x")]) -> (c < 2)%nat).
  { intros c Hin. change (c ∈ [1%nat]) in Hin.
    apply list_elem_of_singleton in Hin. subst c. lia. }
  split; [reflexivity|]. split; [exact Hv|].
  destruct (replace_found_child
    [mkNode None (py "pad") [Ref 1; Attr (py "x")];
     mkNode (Some 0%nat) (py "at") [Attr (py "1"); Attr (py "2")]]
    (mkNode None (py "pad") [Ref 1; Attr (py "x")]) (py "at") 1%nat
    (Some 0%nat) [Attr (py "1"); Attr (py "2"); Attr (py "0.000")] eq_refl Hv)
    as (self' & Hr & Hf & _).
  exists self'. split; [exact Hr|exact Hf].
Defined.

Lemma has_iff_attribute_witness :
  has (mkNode None (py "a") [Ref 1; Attr (py "x")]) (py "x") = true /\
  exists self',
    remove (mkNode None (py "a") [Ref 1; Attr (py "x")]) (Attr (py "x")) = Ok self'.
Proof.
  split; [reflexivity|].
  exact (proj1 (proj1 (proj2 (has_iff_attribute
    (mkNode None (py "a") [Ref 1; Attr (py "x")]) (py "x")))) eq_refl).
Defined.

(** X6: removing the node that [find] returns for a keyword (the way the
    footprint preprocessing drops the [at] node of a footprint): [remove]
    succeeds, the remaining matches are the former ones without the first,
    and the attributes are untouched. *)
Theorem remove_found_child (h : Store) (self : Node) (kw : str) (r : ref) :
  find h self kw = Some r ->
  exists self',
    remove self (Ref r) = Ok self' /\
    findall h self' kw = tail (findall h self kw) /\
    find h self' kw = head (tail (findall h self kw)) /\
    attributes self' = attributes self /\
    length (child self) = S (length (child self')).
Proof.
  intros Hfind.
  destruct (find_split h self kw r Hfind) as (l1 & l2 & Hc & Hk & Hnil & Hall).
  assert (Hr1 : Ref r ∉ l1).
  { intros Hin. by apply (proj1 (findall_nil h _ kw) Hnil r). }
  exists (mkNode (parent self) (keyword self) (l1 ++ l2)).
  assert (Hfa : findall h (mkNode (parent self) (keyword self) (l1 ++ l2)) kw
                = tail (findall h self kw)).
  { by rewrite findall_app, Hnil, Hall. }
  split_and!.
  - rewrite <- (node_eta self) at 1. rewrite Hc. by apply remove_middle.
  - exact Hfa.
  - by rewrite find_head, Hfa.
  - unfold attributes. cbn [child]. rewrite Hc, !omap_app. done.
  - cbn [child]. rewrite Hc, !length_app. simpl. lia.
Qed.

Lemma remove_found_child_witness :
  find [mkNode None (py "module") [Attr (py "R1"); Ref 1; Ref 2];
        mkNode (Some 0%nat) (py "at") [Attr (py "1")];
        mkNode (Some 0%nat) (py "at") [Attr (py "2")]]
       (mkNode None (py "module") [Attr (py "R1"); Ref 1; Ref 2]) (py "at")
    = Some 1%nat /\
  exists self',
    remove (mkNode None (py "module") [Attr (py "R1"); Ref 1; Ref 2]) (Ref 1)
      = Ok self' /\
    find [mkNode None (py "module") [Attr (py "R1"); Ref 1; Ref 2];
          mkNode (Some 0%nat) (py "at") [Attr (py "1")];
          mkNode (Some 0%nat) (py "at") [Attr (py "2")]] self' (py "at")
      = Some 2%nat.
Proof.
  split; [reflexivity|].
  destruct (remove_found_child
    [mkNode None (py "module") [Attr (py "R1"); Ref 1; Ref 2];
     mkNode (Some 0%nat) (py "at") [Attr (py "1")];
     mkNode (Some 0%nat) (py "at") [Attr (py "2")]]
    (mkNode None (py "module") [Attr (py "R1"); Ref 1; Ref 2]) (py "at")
    1%nat eq_refl) as (self' & Hr & _ & Hf & _).
  exists self'. split; [exact Hr|exact Hf].
Defined.

(** ** The tokenizer, further *)

(** X7: a quotation that is never closed swallows the rest of the text: what
    follows the opening quote yields no token, and neither does a word that
    was pending when the quote opened. *)
Theorem unterminated_quote_swallows_rest (data0 w : str) :
  Scan.quote (scan data0 scan_init) = false ->
  Forall (fun c => c <> DQUOTE) w ->
  tokenize (data0 ++ [DQUOTE] ++ w) = tokenize data0.
Proof.
  intros Hq Hw. unfold tokenize. rewrite scan_app.
  destruct (scan data0 scan_init) as [tk q m w0]; simpl in Hq; subst q.
  change ([DQUOTE] ++ w) with (DQUOTE :: w). rewrite scan_cons.
  change (tokenize_step (Scan.mk tk false m w0) DQUOTE)
    with (Scan.mk tk true m w0).
  by rewrite scan_in_quote.
Qed.

Lemma unterminated_quote_swallows_rest_witness :
  Scan.quote (scan (py "(a b") scan_init) = false /\
  Forall (fun c => c <> DQUOTE) (py "c d) (e)") /\
  tokenize (py "(a b" ++ [DQUOTE] ++ py "c d) (e)") = [OPEN; KEYWORD (py "a")].
Proof.
  assert (H : Forall (fun c => c <> DQUOTE) (py "c d) (e)")).
  { simpl. repeat (apply Forall_cons_2; [discriminate|]). apply Forall_nil_2. }
  split; [reflexivity|]. split; [exact H|].
  exact (unterminated_quote_swallows_rest (py "(a b") (py "c d) (e)") eq_refl H).
Defined.

Lemma scan_whitespace_run (ws : str) (st : Scan.state) :
  whitespace_only ws -> ws <> [] -> Scan.quote st = false ->
  scan ws st =
    Scan.mk (out st) false
      (if nonempty (Scan.word st) then TOKEN_WORD else Scan.word_token st) [].
Proof.
  intros Hws Hne Hq. destruct Hws as [|c ws Hc Hws]; [done|].
  rewrite scan_cons, step_whitespace by done.
  destruct st as [tk q m w]; simpl in *; subst q.
  destruct w as [|a w]; simpl.
  - rewrite scan_whitespace by done. by rewrite out_idle.
  - rewrite scan_whitespace by done. unfold out, pending; simpl. done.
Qed.

(** X8: outside quoting the tokens do not depend on which whitespace
    characters separate them, nor on how many: one non-empty run of
    whitespace can be exchanged for any other. *)
Theorem whitespace_runs_equivalent (a ws1 ws2 b : str) :
  Scan.quote (scan a scan_init) = false ->
  whitespace_only ws1 -> whitespace_only ws2 -> ws1 <> [] -> ws2 <> [] ->
  tokenize (a ++ ws1 ++ b) = tokenize (a ++ ws2 ++ b).
Proof.
  intros Hq H1 H2 Hn1 Hn2. unfold tokenize. rewrite !scan_app.
  by rewrite (scan_whitespace_run ws1), (scan_whitespace_run ws2).
Qed.

Lemma whitespace_runs_equivalent_witness :
  Scan.quote (scan (py "(a") scan_init) = false /\
  whitespace_only [SPACE] /\ whitespace_only [NEWLINE; TAB; SPACE] /\
  [SPACE] <> [] /\ [NEWLINE; TAB; SPACE] <> [] /\
  tokenize (py "(a" ++ [SPACE] ++ py "b)") =
  tokenize (py "(a" ++ [NEWLINE; TAB; SPACE] ++ py "b)").
Proof.
  assert (H1 : whitespace_only [SPACE]) by (by repeat constructor).
  assert (H2 : whitespace_only [NEWLINE; TAB; SPACE]) by (by repeat constructor).
  split; [reflexivity|]. split; [exact H1|]. split; [exact H2|].
  split; [discriminate|]. split; [discriminate|].
  exact (whitespace_runs_equivalent (py "(a") [SPACE] [NEWLINE; TAB; SPACE]
           (py "b)") eq_refl H1 H2 ltac:(discriminate) ltac:(discriminate)).
Defined.

Lemma classified_snoc (tokens : list Token) (t : Token) :
  classified tokens ->
  type t = TOKEN_OPEN \/ type t = TOKEN_CLOSE \/
    type t = mode_after (last tokens) ->
  classified (tokens ++ [t]).
Proof.
  intros Hcl Ht pre t' post Heq.
  destruct post as [|x post _] using rev_ind.
  - apply app_inj_tail in Heq as [-> ->]. done.
  - rewrite app_comm_cons, app_assoc in Heq.
    apply app_inj_tail in Heq as [-> _]. by apply (Hcl pre t' post).
Qed.

Lemma mode_after_word (t : Token) :
  type t = TOKEN_WORD \/ type t = TOKEN_KEYWORD ->
  mode_after (Some t) = TOKEN_WORD.
Proof. unfold mode_after. by intros [->| ->]. Qed.

Lemma mode_after_cases (prev : option Token) :
  mode_after prev = TOKEN_WORD \/ mode_after prev = TOKEN_KEYWORD.
Proof. unfold mode_after. destruct prev as [t|]; [destruct (type t)|]; auto. Qed.

Lemma tokenize_step_classified (st : Scan.state) (c : char) :
  classified (Scan.tokens st) ->
  Scan.word_token st = mode_after (last (Scan.tokens st)) ->
  classified (Scan.tokens (tokenize_step st c)) /\
  Scan.word_token (tokenize_step st c)
    = mode_after (last (Scan.tokens (tokenize_step st c))).
Proof.
  destruct st as [tk q m w]; simpl. intros Hcl Hm.
  assert (Hflush : classified (tk ++ [mkToken m w]) /\
                   TOKEN_WORD = mode_after (last (tk ++ [mkToken m w]))).
  { split.
    - apply classified_snoc; [done|]. right; right. done.
    - rewrite last_snoc. symmetry. apply mode_after_word. simpl.
      rewrite Hm. apply mode_after_cases. }
  destruct (negb q && (c =? DQUOTE)); [done|].
  destruct (q && (c =? DQUOTE)); [done|].
  destruct q; [done|].
  destruct ((c =? LPAREN) || (c =? RPAREN)).
  - destruct (nonempty w); simpl.
    + split.
      * apply classified_snoc; [apply Hflush|].
        destruct (c =? LPAREN); simpl; auto.
      * rewrite last_snoc. unfold mode_after; simpl. by destruct (c =? LPAREN).
    + split.
      * apply classified_snoc; [done|].
        destruct (c =? LPAREN); simpl; auto.
      * rewrite last_snoc. unfold mode_after; simpl. by destruct (c =? LPAREN).
  - destruct (isspace c); [|done].
    destruct (nonempty w); [|done]. exact Hflush.
Qed.

(** X9: how [tokenize] tells keywords from attributes.  A KEYWORD token is
    the first token or comes directly after an OPEN; a WORD token comes
    directly after a token that is not an OPEN. *)
Theorem keyword_follows_open (data0 : str) (pre post : list Token) (t : Token) :
  tokenize data0 = pre ++ t :: post ->
  (type t = TOKEN_KEYWORD ->
     last pre = None \/ exists t0, last pre = Some t0 /\ type t0 = TOKEN_OPEN) /\
  (type t = TOKEN_WORD ->
     exists t0, last pre = Some t0 /\ type t0 <> TOKEN_OPEN).
Proof.
  assert (Hinv : forall d st,
    classified (Scan.tokens st) ->
    Scan.word_token st = mode_after (last (Scan.tokens st)) ->
    classified (Scan.tokens (scan d st))).
  { induction d as [|c d IH]; intros st Hcl Hm; [done|].
    rewrite scan_cons.
    destruct (tokenize_step_classified st c Hcl Hm) as [Hcl' Hm'].
    by apply IH. }
  intros Heq.
  assert (Hcl : classified (tokenize data0)).
  { apply Hinv; [|done]. intros pre' t' post' E. by destruct pre'. }
  specialize (Hcl pre t post Heq). unfold mode_after in Hcl.
  split; intros Ht; rewrite Ht in Hcl.
  - destruct (last pre) as [t0|]; [|by left]. right. exists t0. split; [done|].
    destruct (type t0); destruct Hcl as [?|[?|?]]; done.
  - destruct (last pre) as [t0|].
    + exists t0. split; [done|]. intros Ho. rewrite Ho in Hcl.
      destruct Hcl as [?|[?|?]]; done.
    + destruct Hcl as [?|[?|?]]; done.
Qed.

Lemma keyword_follows_open_witness :
  tokenize (py "(a b (c))") =
    [OPEN; KEYWORD (py "a"); WORD (py "b"); OPEN] ++
    KEYWORD (py "c") :: [CLOSE; CLOSE] /\
  (last [OPEN; KEYWORD (py "a"); WORD (py "b"); OPEN] = None \/
   exists t0, last [OPEN; KEYWORD (py "a"); WORD (py "b"); OPEN] = Some t0 /\
              type t0 = TOKEN_OPEN).
Proof.
  split; [reflexivity|].
  exact (proj1 (keyword_follows_open (py "(a b (c))")
    [OPEN; KEYWORD (py "a"); WORD (py "b"); OPEN] [CLOSE; CLOSE]
    (KEYWORD (py "c")) eq_refl) eq_refl).
Defined.

Lemma tokenize_step_brackets (st : Scan.state) (c : char) :
  Forall (fun t => (type t = TOKEN_OPEN -> data t = [LPAREN]) /\
                   (type t = TOKEN_CLOSE -> data t = [RPAREN]))
         (Scan.tokens st) ->
  Scan.word_token st = TOKEN_WORD \/ Scan.word_token st = TOKEN_KEYWORD ->
  Forall (fun t => (type t = TOKEN_OPEN -> data t = [LPAREN]) /\
                   (type t = TOKEN_CLOSE -> data t = [RPAREN]))
         (Scan.tokens (tokenize_step st c)) /\
  (Scan.word_token (tokenize_step st c) = TOKEN_WORD \/
   Scan.word_token (tokenize_step st c) = TOKEN_KEYWORD).
Proof.
  destruct st as [tk q m w]; simpl. intros Htk Hm.
  assert (Hflush : Forall (fun t => (type t = TOKEN_OPEN -> data t = [LPAREN]) /\
                   (type t = TOKEN_CLOSE -> data t = [RPAREN]))
                     (tk ++ [mkToken m w])).
  { apply Forall_app_2; [done|]. constructor; [|done]. simpl.
    destruct Hm as [-> | ->]; by split. }
  destruct (negb q && (c =? DQUOTE)); [done|].
  destruct (q && (c =? DQUOTE)); [by split; [|left]|].
  destruct q; [done|].
  destruct ((c =? LPAREN) || (c =? RPAREN)) eqn:Eb.
  - assert (Hb : (type (mkToken (if c =? LPAREN then TOKEN_OPEN else TOKEN_CLOSE) [c])
                    = TOKEN_OPEN -> [c] = [LPAREN]) /\
                 (type (mkToken (if c =? LPAREN then TOKEN_OPEN else TOKEN_CLOSE) [c])
                    = TOKEN_CLOSE -> [c] = [RPAREN])).
    { simpl. destruct (c =? LPAREN) eqn:El.
      - apply N.eqb_eq in El. subst c. by split.
      - simpl in Eb. apply N.eqb_eq in Eb. subst c. by split. }
    destruct (nonempty w); simpl.
    + split; [|destruct (c =? LPAREN); auto].
      apply Forall_app_2; [done|]. by constructor.
    + split; [|destruct (c =? LPAREN); auto].
      apply Forall_app_2; [done|]. by constructor.
  - destruct (isspace c); [|done].
    destruct (nonempty w); [|done]. simpl. split; [done|by left].
Qed.

(** X10: what a token can hold.  No token of [tokenize] holds a double quote
    (the quote characters of the text are never part of a value), an OPEN
    token holds exactly the opening bracket and a CLOSE token exactly the
    closing bracket. *)
Theorem token_payloads (data0 : str) (t : Token) :
  t ∈ tokenize data0 ->
  Forall (fun c => c <> DQUOTE) (data t) /\
  (type t = TOKEN_OPEN -> data t = [LPAREN]) /\
  (type t = TOKEN_CLOSE -> data t = [RPAREN]).
Proof.
  intros Hin. split.
  - pose proof (tokenize_clean data0) as Hc.
    rewrite Forall_forall in Hc. by apply Hc.
  - assert (Hinv : forall d st,
      Forall (fun t => (type t = TOKEN_OPEN -> data t = [LPAREN]) /\
                       (type t = TOKEN_CLOSE -> data t = [RPAREN]))
             (Scan.tokens st) ->
      Scan.word_token st = TOKEN_WORD \/ Scan.word_token st = TOKEN_KEYWORD ->
      Forall (fun t => (type t = TOKEN_OPEN -> data t = [LPAREN]) /\
                       (type t = TOKEN_CLOSE -> data t = [RPAREN]))
             (Scan.tokens (scan d st))).
    { induction d as [|c d IH]; intros st Htk Hm; [done|].
      rewrite scan_cons.
      destruct (tokenize_step_brackets st c Htk Hm) as [Htk' Hm'].
      by apply IH. }
    assert (Hall := Hinv data0 scan_init (Forall_nil_2 _) (or_intror eq_refl)).
    rewrite Forall_forall in Hall. by apply Hall.
Qed.

Lemma token_payloads_witness :
  OPEN ∈ tokenize (py "(a)") /\
  Forall (fun c => c <> DQUOTE) (data OPEN) /\
  (type OPEN = TOKEN_OPEN -> data OPEN = [LPAREN]).
Proof.
  assert (H : OPEN ∈ tokenize (py "(a)")) by left.
  split; [exact H|].
  destruct (token_payloads (py "(a)") OPEN H) as (H1 & H2 & _).
  split; [exact H1|exact H2].
Defined.

(** ** The parser, further *)

Lemma add_keeps_child (p : ref) (c : Child) (h : Store) (q : ref) (pn : Node)
    (x : Child) :
  h !! q = Some pn -> x ∈ child pn ->
  exists pn', add p c h !! q = Some pn' /\ x ∈ child pn'.
Proof.
  intros Hq Hx. rewrite lookup_add, Hq. simpl.
  destruct (decide (p = q)); eexists; (split; [done|]); [|done].
  apply child_append_elem. by left.
Qed.

Lemma owned_step (st st' : Parse.state) (t : Token) :
  store_ok st -> owned st -> parse_step st t = Ok st' -> owned st'.
Proof.
  destruct st as [h r nd sk], t as [ty d]. unfold store_ok, owned; simpl.
  intros (_ & H2 & _ & _) Hown. destruct ty; simpl.
  - (* WORD *)
    destruct nd as [p|]; [|done]. intros [= <-]; simpl.
    intros r0 n Hr0. rewrite lookup_add in Hr0.
    destruct (h !! r0) as [n0|] eqn:E; [|done]. injection Hr0 as <-.
    specialize (Hown r0 n0 E).
    assert (Hp : parent ((if decide (p = r0) then child_append (Attr d) else id) n0)
                 = parent n0) by (by destruct (decide (p = r0))).
    rewrite Hp. destruct (parent n0) as [q|]; [|done].
    destruct Hown as (pn & Hq & Hin). by apply (add_keeps_child _ _ _ _ pn).
  - (* KEYWORD *)
    destruct nd as [p|].
    + intros [= <-]; simpl. specialize (H2 p eq_refl).
      intros r0 n Hr0. rewrite lookup_add in Hr0.
      destruct ((h ++ [mkNode (Some p) d []]) !! r0) as [n0|] eqn:E; [|done].
      injection Hr0 as <-.
      assert (Hp : parent ((if decide (p = r0) then child_append (Ref (length h))
                            else id) n0) = parent n0)
        by (by destruct (decide (p = r0))).
      rewrite Hp.
      apply lookup_snoc_Some in E as [[Hlt E]|[-> <-]].
      * specialize (Hown r0 n0 E). destruct (parent n0) as [q|]; [|done].
        destruct Hown as (pn & Hq & Hin).
        apply (add_keeps_child _ _ _ _ pn); [|done].
        by apply lookup_app_l_Some.
      * simpl. destruct (lookup_lt_is_Some_2 h p H2) as [pn Hpn].
        exists (child_append (Ref (length h)) pn). split.
        -- rewrite lookup_add, (lookup_app_l_Some _ _ _ _ Hpn). simpl.
           by rewrite decide_True.
        -- apply child_append_elem. by right.
    + destruct r as [r|]; [done|]. intros [= <-]; simpl.
      intros r0 n Hr0.
      apply lookup_snoc_Some in Hr0 as [[Hlt E]|[-> <-]].
      * specialize (Hown r0 n E). destruct (parent n) as [q|]; [|done].
        destruct Hown as (pn & Hq & Hin). exists pn. split; [|done].
        by apply lookup_app_l_Some.
      * done.
  - (* OPEN *)
    by intros [= <-].
  - (* CLOSE *)
    destruct sk as [|top rest]; [done|]. by intros [= <-].
Qed.

Lemma owned_loop (tokens : list Token) (st st' : Parse.state) :
  store_ok st -> owned st -> parse_loop tokens st = Ok st' -> owned st'.
Proof.
  revert st. induction tokens as [|t ts IH]; intros st Hok Hown; simpl.
  - by intros [= <-].
  - destruct (parse_step st t) as [st1|] eqn:E; simpl; [|done].
    apply IH; [by apply (store_ok_step st st1 t)|by apply (owned_step st st1 t)].
Qed.

(** X11: the store built by a successful [parse] is a strict tree.  A child
    reference points to a node created later (so there is no cycle), a node
    is the child of at most one node, every node but the root is a child of
    its parent, and every node of the store is reachable from the root; when
    [parse] returns no root the store is empty. *)
Theorem parse_builds_strict_tree (D : str) (h : Store) (root : option ref) :
  parse_store D = Ok (h, root) ->
  (forall i n r, h !! i = Some n -> Ref r ∈ child n ->
     (i < r < length h)%nat) /\
  (forall i j ni nj r, h !! i = Some ni -> h !! j = Some nj ->
     Ref r ∈ child ni -> Ref r ∈ child nj -> i = j) /\
  (forall r n, h !! r = Some n -> root <> Some r ->
     exists p pn, parent n = Some p /\ h !! p = Some pn /\ Ref r ∈ child pn) /\
  (forall r, (r < length h)%nat ->
     exists R, root = Some R /\ reachable h R r) /\
  (root = None -> h = []).
Proof.
  intros (st & Hl & _ & <- & <-)%parse_store_inv.
  pose proof (store_ok_loop _ _ _ store_ok_init Hl) as Hok.
  assert (Hown : owned st).
  { apply (owned_loop _ _ _ store_ok_init) in Hl; [done|].
    intros r n Hr. done. }
  destruct Hok as (H1 & _ & _ & H4).
  assert (Hfw : forall i n r, Parse.heap st !! i = Some n -> Ref r ∈ child n ->
                  (i < r < length (Parse.heap st))%nat).
  { intros i n r Hi Hr. destruct (H1 i n r Hi Hr) as [Hlt Hp].
    split; [done|]. apply lookup_lt_is_Some.
    destruct (Parse.heap st !! r); [done|discriminate]. }
  assert (Hnonroot : forall r n, Parse.heap st !! r = Some n ->
            Parse.root st <> Some r ->
            exists p pn, parent n = Some p /\ Parse.heap st !! p = Some pn /\
                         Ref r ∈ child pn).
  { intros r n Hr Hne. specialize (Hown r n Hr).
    destruct (parent n) as [p|]; [|done].
    destruct Hown as (pn & Hp & Hin). by exists p, pn. }
  assert (Hreach : forall r, (r < length (Parse.heap st))%nat ->
            exists R, Parse.root st = Some R /\ reachable (Parse.heap st) R r).
  { intros r. induction r as [r IH] using lt_wf_ind. intros Hr.
    destruct (lookup_lt_is_Some_2 _ r Hr) as [n Hn].
    destruct (decide (Parse.root st = Some r)) as [E|Hne].
    - exists r. split; [done|constructor].
    - destruct (Hnonroot r n Hn Hne) as (p & pn & Hp & Hpn & Hin).
      destruct (Hfw p pn r Hpn Hin) as [Hlt _].
      destruct (IH p Hlt) as (R & HR & Hre); [lia|].
      exists R. split; [done|]. by apply (reach_child _ _ p r pn). }
  split_and!; try done.
  - intros i j ni nj r Hi Hj Hri Hrj.
    destruct (H1 i ni r Hi Hri) as [_ Hpi], (H1 j nj r Hj Hrj) as [_ Hpj].
    congruence.
  - intros Hnone. destruct (Parse.heap st) as [|n0 h0] eqn:E; [done|].
    destruct (Hreach 0%nat) as (R & HR & _); [rewrite ?E; simpl; lia|].
    congruence.
Qed.

Lemma parse_builds_strict_tree_witness :
  parse_store (py "(a (b x) y)") =
    Ok ([mkNode None (py "a") [Ref 1; Attr (py "y")];
         mkNode (Some 0%nat) (py "b") [Attr (py "x")]], Some 0%nat) /\
  exists R, Some 0%nat = Some R /\
    reachable [mkNode None (py "a") [Ref 1; Attr (py "y")];
               mkNode (Some 0%nat) (py "b") [Attr (py "x")]] R 1.
Proof.
  split; [reflexivity|].
  destruct (parse_builds_strict_tree (py "(a (b x) y)")
    [mkNode None (py "a") [Ref 1; Attr (py "y")];
     mkNode (Some 0%nat) (py "b") [Attr (py "x")]] (Some 0%nat) eq_refl)
    as (_ & _ & _ & Hreach & _).
  apply Hreach. simpl. lia.
Defined.

(** ** Round trip, further *)

Lemma roundtrip_without_bare_whitespace_witness :
  parse (py "(lib (name " ++ [DQUOTE] ++ py "Foo Bar" ++ [DQUOTE] ++ py ") x)")
    = Ok (Some (T (py "lib") [inr (T (py "name") [inl (py "Foo Bar")]); inl (py "x")])) /\
  Forall (fun w => must_quote w = false -> Forall (fun c => isspace c = false) w)
    (tree_words (T (py "lib") [inr (T (py "name") [inl (py "Foo Bar")]); inl (py "x")])) /\
  parse (dump (T (py "lib") [inr (T (py "name") [inl (py "Foo Bar")]); inl (py "x")]))
    = Ok (Some (T (py "lib") [inr (T (py "name") [inl (py "Foo Bar")]); inl (py "x")])).
Proof.
  assert (H : Forall
    (fun w => must_quote w = false -> Forall (fun c => isspace c = false) w)
    (tree_words (T (py "lib") [inr (T (py "name") [inl (py "Foo Bar")]); inl (py "x")]))).
  { simpl. repeat apply Forall_cons_2; try apply Forall_nil_2;
      (intros Hq; vm_compute in Hq;
       first [ discriminate Hq
             | repeat (apply Forall_cons_2; [reflexivity|]); apply Forall_nil_2 ]). }
  split; [reflexivity|]. split; [exact H|].
  exact (roundtrip_without_bare_whitespace
    (py "(lib (name " ++ [DQUOTE] ++ py "Foo Bar" ++ [DQUOTE] ++ py ") x)")
    _ eq_refl H).
Defined.

(** X13: [dump] tells recoverable trees apart: two trees whose values are
    all recoverable and that are written as the same text are the same
    tree. *)
Theorem dump_injective (t1 t2 : Tree) :
  Forall recoverable (tree_words t1) -> Forall recoverable (tree_words t2) ->
  dump t1 = dump t2 -> t1 = t2.
Proof.
  intros H1 H2 Hd.
  pose proof (parse_tokens_of_tree (dump t1) t1 (tokenize_dump t1 H1)) as P1.
  pose proof (parse_tokens_of_tree (dump t2) t2 (tokenize_dump t2 H2)) as P2.
  rewrite Hd in P1. congruence.
Qed.

Lemma dump_injective_witness :
  Forall recoverable (tree_words (T (py "a") [inl (py "b c")])) /\
  dump (T (py "a") [inl (py "b c")]) = dump (T (py "a") [inl (py "b c")]) /\
  T (py "a") [inl (py "b c")] = T (py "a") [inl (py "b c")].
Proof.
  assert (H : Forall recoverable (tree_words (T (py "a") [inl (py "b c")]))).
  { simpl. repeat apply Forall_cons_2; try apply Forall_nil_2;
      (split;
       [ repeat (apply Forall_cons_2; [discriminate|]); apply Forall_nil_2
       | intros Hq; vm_compute in Hq;
         first [ discriminate Hq
               | repeat (apply Forall_cons_2; [reflexivity|]); apply Forall_nil_2 ] ]). }
  split; [exact H|]. split; [reflexivity|].
  exact (dump_injective _ _ H H eq_refl).
Defined.

(** ** The read-only methods on the store and on the structural value *)

Lemma tree_at_keyword (h : Store) (fuel : nat) (r : ref) (t : Tree) :
  tree_at fuel h r = Some t -> keyword <$> h !! r = Some (tree_keyword t).
Proof.
  destruct fuel as [|fuel]; simpl; [done|].
  destruct (h !! r) as [n|]; simpl; [|done].
  destruct (mapM _ (child n)) as [items|]; simpl; [|done].
  by intros [= <-].
Qed.

Lemma Forall2_filter_iff {A B} (R : A -> B -> Prop) (P : A -> Prop) (Q : B -> Prop)
    `{!forall x, Decision (P x), !forall y, Decision (Q y)} (l : list A) (k : list B) :
  Forall2 R l k -> (forall x y, R x y -> (P x <-> Q y)) ->
  Forall2 R (filter P l) (filter Q k).
Proof.
  intros HR HPQ. induction HR as [|x y l k Hxy _ IH]; [constructor|].
  rewrite !filter_cons. specialize (HPQ x y Hxy).
  destruct (decide (P x)), (decide (Q y)); try tauto. by constructor.
Qed.

(** X16: the read-only methods see only the structural value of a node:
    [keyword] and [attributes] are those of the tree read at the node;
    [children], [findall] and [find] return references at which the
    sub-trees, the matching sub-trees and the first matching sub-tree are
    read; [has] is membership among the attributes of the tree. *)
Theorem tree_methods_agree (h : Store) (fuel : nat) (r : ref) (n : Node)
    (t : Tree) (kw : str) :
  h !! r = Some n -> tree_at (S fuel) h r = Some t ->
  tree_keyword t = keyword n /\
  tree_attributes t = attributes n /\
  Forall2 (fun c tc => tree_at fuel h c = Some tc) (children n) (tree_children t) /\
  Forall2 (fun c tc => tree_at fuel h c = Some tc)
          (findall h n kw) (tree_findall t kw) /\
  (forall a, has n a = true <-> a ∈ tree_attributes t) /\
  match find h n kw, tree_find t kw with
  | Some c, Some tc => tree_at fuel h c = Some tc
  | None, None => True
  | _, _ => False
  end.
Proof.
  intros Hr. simpl. rewrite Hr. simpl.
  destruct (mapM _ (child n)) as [items|] eqn:Em; simpl; [|done].
  intros [= <-]. apply mapM_Some_1 in Em.
  assert (Hboth :
    tree_attributes (T (keyword n) items) = attributes n /\
    Forall2 (fun c tc => tree_at fuel h c = Some tc)
      (children n) (tree_children (T (keyword n) items))).
  { unfold tree_attributes, attributes, tree_children, children. simpl.
    induction Em as [|c it l k Hc _ [IH1 IH2]]; [by split; [|constructor]|].
    destruct c as [s|r'].
    - injection Hc as <-. csimpl. by rewrite IH1.
    - destruct (tree_at fuel h r') as [t'|] eqn:Et; [|done]. injection Hc as <-.
      csimpl. split; [done|by constructor]. }
  destruct Hboth as [Hattr Hch].
  assert (Hfa : Forall2 (fun c tc => tree_at fuel h c = Some tc)
                  (findall h n kw) (tree_findall (T (keyword n) items) kw)).
  { unfold findall, tree_findall. apply Forall2_filter_iff; [done|].
    intros c tc Hc. apply tree_at_keyword in Hc. rewrite Hc.
    split; [by intros [= ->]|by intros ->]. }
  split_and!; try done.
  - intros a. rewrite Hattr. unfold has. rewrite existsb_exists. split.
    + intros (a' & Hin%list_elem_of_In & ->%bool_decide_eq_true). done.
    + intros Hin. exists a. split; [by apply list_elem_of_In|].
      by apply bool_decide_eq_true.
  - unfold find, tree_find. by destruct Hfa.
Qed.

Lemma tree_methods_agree_witness :
  [mkNode None (py "a") [Ref 1; Attr (py "y")];
   mkNode (Some 0%nat) (py "b") [Attr (py "x")]] !! 0%nat
    = Some (mkNode None (py "a") [Ref 1; Attr (py "y")]) /\
  tree_at 2 [mkNode None (py "a") [Ref 1; Attr (py "y")];
             mkNode (Some 0%nat) (py "b") [Attr (py "x")]] 0
    = Some (T (py "a") [inr (T (py "b") [inl (py "x")]); inl (py "y")]) /\
  tree_attributes (T (py "a") [inr (T (py "b") [inl (py "x")]); inl (py "y")])
    = attributes (mkNode None (py "a") [Ref 1; Attr (py "y")]).
Proof.
  split; [reflexivity|]. split; [reflexivity|].
  exact (proj1 (proj2 (tree_methods_agree
    [mkNode None (py "a") [Ref 1; Attr (py "y")];
     mkNode (Some 0%nat) (py "b") [Attr (py "x")]] 1 0%nat
    (mkNode None (py "a") [Ref 1; Attr (py "y")])
    (T (py "a") [inr (T (py "b") [inl (py "x")]); inl (py "y")])
    (py "b") eq_refl eq_refl))).
Defined.

(** ** The library tables *)






Lemma load_libs_nil (libs : gset Library) : load_libs [] libs = Ok libs.
Proof. reflexivity. Qed.

(** X15: what [load_lib_table] does with a text that is not a table.  A text
    without tokens (an empty file) makes it fail on the attribute access to
    [None]; a text that [parse] rejects fails with the exception of [parse];
    a root with another keyword fails the assertion; a table without [lib]
    nodes gives the empty set. *)
Theorem load_lib_table_edges (D : str) :
  (tokenize D = [] \/ whitespace_only D ->
     load_lib_table D = Raise AttributeError) /\
  (forall e, parse D = Raise e -> load_lib_table D = Raise e) /\
  (forall t, parse D = Ok (Some t) ->
     tree_keyword t <> py "sym_lib_table" ->
     tree_keyword t <> py "fp_lib_table" ->
     load_lib_table D = Raise AssertionError) /\
  (forall t, parse D = Ok (Some t) ->
     tree_keyword t = py "sym_lib_table" \/ tree_keyword t = py "fp_lib_table" ->
     (forall c, c ∈ tree_children t -> tree_keyword c <> py "lib") ->
     load_lib_table D = Ok ∅).
Proof.
  split_and!.
  - intros H. assert (Ht : tokenize D = []).
    { destruct H as [H|H]; [done|by apply tokenize_whitespace]. }
    unfold load_lib_table, parse, parse_store. by rewrite Ht.
  - intros e He. unfold load_lib_table. by rewrite He.
  - intros t Hp H1 H2. unfold load_lib_table. rewrite Hp. simpl.
    by rewrite !bool_decide_eq_false_2.
  - intros t Hp Hk Hno. unfold load_lib_table. rewrite Hp.
    cbv beta iota delta [mbind result_bind].
    assert (Hb : bool_decide (tree_keyword t = py "sym_lib_table")
                 || bool_decide (tree_keyword t = py "fp_lib_table") = true).
    { apply orb_true_iff. destruct Hk as [Hk|Hk]; [left|right];
        by apply bool_decide_eq_true. }
    rewrite Hb.
    assert (Hnil : tree_findall t (py "lib") = []).
    { apply elem_of_nil_inv. intros c [Hc Hin]%list_elem_of_filter.
      by apply (Hno c). }
    by rewrite Hnil.
Qed.

Lemma load_lib_table_edges_witness :
  (tokenize [] = [] \/ whitespace_only []) /\
  load_lib_table [] = Raise AttributeError /\
  parse (py "(kicad_pcb)") = Ok (Some (T (py "kicad_pcb") [])) /\
  load_lib_table (py "(kicad_pcb)") = Raise AssertionError.
Proof.
  split; [left; reflexivity|]. split.
  - exact (proj1 (load_lib_table_edges []) (or_introl eq_refl)).
  - split; [reflexivity|].
    apply (proj1 (proj2 (proj2 (load_lib_table_edges (py "(kicad_pcb)"))))
             (T (py "kicad_pcb") []) eq_refl); discriminate.
Defined.

(** ** The written text and quotations, further *)

(** X17: the shape of every text that [dump] writes: it begins with a line
    break and the opening bracket, as the first line is empty, and it ends
    with the closing bracket, with no line break after it. *)
Theorem dump_begins_and_ends (t : Tree) :
  exists body, dump t = [NEWLINE; LPAREN] ++ body ++ [RPAREN].
Proof.
  rewrite dump_text. destruct t as [kw items]. simpl node_text.
  unfold closing, spaces. simpl repeat.
  destruct (existsb is_node items).
  - eexists (quoted kw ++ concat _ ++ [NEWLINE]).
    simpl. rewrite <- !app_assoc. reflexivity.
  - eexists (quoted kw ++ concat _).
    simpl. rewrite <- !app_assoc. reflexivity.
Qed.

(** X18: quotations inside and next to words.  A quote that opens in the
    middle of a word does not end the word: the quoted text is appended to
    it and one token is emitted at the closing quote.  A closing quote always
    ends the token, so text that follows it starts a new word, typed as an
    attribute. *)
Theorem quote_joins_word_and_ends_token (tk : list Token) (m : TokenType)
    (w0 w w1 : str) :
  Forall (fun c => c <> DQUOTE) w0 ->
  Forall (fun c => (c =? LPAREN) = false /\ (c =? RPAREN) = false) w0 ->
  Forall (fun c => isspace c = false) w0 ->
  Forall (fun c => c <> DQUOTE) w ->
  Forall (fun c => c <> DQUOTE) w1 ->
  Forall (fun c => (c =? LPAREN) = false /\ (c =? RPAREN) = false) w1 ->
  Forall (fun c => isspace c = false) w1 ->
  scan (w0 ++ [DQUOTE] ++ w ++ [DQUOTE]) (Scan.mk tk false m [])
    = Scan.mk (tk ++ [mkToken m (w0 ++ w)]) false TOKEN_WORD [] /\
  scan (w0 ++ [DQUOTE] ++ w ++ [DQUOTE] ++ w1) (Scan.mk tk false m [])
    = Scan.mk (tk ++ [mkToken m (w0 ++ w)]) false TOKEN_WORD w1.
Proof.
  intros H0 H0p H0s Hw H1 H1p H1s.
  assert (Hfirst : scan (w0 ++ [DQUOTE] ++ w ++ [DQUOTE]) (Scan.mk tk false m [])
                   = Scan.mk (tk ++ [mkToken m (w0 ++ w)]) false TOKEN_WORD []).
  { rewrite scan_app, scan_bare by done. rewrite app_nil_l.
    change ([DQUOTE] ++ w ++ [DQUOTE]) with (DQUOTE :: (w ++ [DQUOTE])).
    rewrite scan_cons.
    change (tokenize_step (Scan.mk tk false m w0) DQUOTE)
      with (Scan.mk tk true m w0).
    rewrite scan_app, scan_in_quote by done. reflexivity. }
  split; [exact Hfirst|].
  replace (w0 ++ [DQUOTE] ++ w ++ [DQUOTE] ++ w1)
    with ((w0 ++ [DQUOTE] ++ w ++ [DQUOTE]) ++ w1)
    by (by rewrite <- !app_assoc).
  rewrite scan_app, Hfirst, scan_bare by done. reflexivity.
Qed.

Lemma quote_joins_word_and_ends_token_witness :
  tokenize (py "(a b" ++ [DQUOTE] ++ py "c d" ++ [DQUOTE] ++ py "e)")
    = [OPEN; KEYWORD (py "a"); WORD (py "bc d"); WORD (py "e"); CLOSE] /\
  scan (py "b" ++ [DQUOTE] ++ py "c d" ++ [DQUOTE])
       (Scan.mk [OPEN; KEYWORD (py "a")] false TOKEN_WORD [])
    = Scan.mk ([OPEN; KEYWORD (py "a")] ++ [mkToken TOKEN_WORD (py "b" ++ py "c d")])
              false TOKEN_WORD [].
Proof.
  split; [reflexivity|].
  refine (proj1 (quote_joins_word_and_ends_token
    [OPEN; KEYWORD (py "a")] TOKEN_WORD (py "b") (py "c d") (py "e")
    _ _ _ _ _ _ _));
    simpl; repeat (apply Forall_cons_2; [first [discriminate|by split|reflexivity]|]);
    apply Forall_nil_2.
Defined.
